(** * CKY recognition for grammars in Chomsky normal form

    A shallow embedding of [src/cky.py] and [src/main.py]: the class
    [Gramatica] with its methods [algoritme_cky],
    [_preprocessar_regles_binaries] / [_preprocessar_gramatica] and
    [_comprovar_derivacio_buida], followed by the properties of the
    recogniser. *)

From Stdlib Require Import Ascii String.
From stdpp Require Import base gmap sets list.

Set Default Proof Using "Type".
Set Warnings "-clear-no-such-hyp".

(** ** Python values *)

(** A Python [str] is a sequence of code points; [len] counts code points,
    so the Greek letter epsilon is one character. *)
Definition char := N.
Definition str := list char.

(** An ASCII literal as a Python [str]. *)
Fixpoint lit (s : string) : str :=
  match s with
  | EmptyString => []
  | String a s' => N_of_ascii a :: lit s'
  end.

(** The two sentinels of [_comprovar_derivacio_buida] in cky.py. *)
Definition epsilon : str := [949%N].
Definition buit : str := [].

(** [Union[List[str], str]]: what a production body and a sentence are.
    Indexing a [str] yields the one-character [str] at that position. *)
Inductive pyseq :=
| PStr (s : str)
| PList (l : list str).

#[global] Instance pyseq_eq_dec : EqDecision pyseq.
Proof. solve_decision. Defined.

Definition items (p : pyseq) : list str :=
  match p with
  | PStr s => (λ c, [c]) <$> s
  | PList l => l
  end.

Definition len (p : pyseq) : nat := length (items p).

(** Truthiness: [not frase] holds of the empty string and the empty list. *)
Definition is_falsy (p : pyseq) : bool :=
  match items p with [] => true | _ => false end.

(** [produccio == ''] : a list never equals a string. *)
Definition eq_str (p : pyseq) (s : str) : bool :=
  match p with
  | PStr s' => bool_decide (s' = s)
  | PList _ => false
  end.

(** [sep.join(l)] on a list of strings. *)
Fixpoint join (sep : str) (l : list str) : str :=
  match l with
  | [] => []
  | [x] => x
  | x :: l' => x ++ sep ++ join sep l'
  end.

(** ** Exceptions *)

Inductive excepcio :=
  IndexError | KeyError | RuntimeError | TypeError | AttributeError.

Inductive res (A : Type) :=
| Ok (a : A)
| Raise (e : excepcio).
Arguments Ok {A} a.
Arguments Raise {A} e.

Definition bind {A B} (m : res A) (k : A → res B) : res B :=
  match m with
  | Ok a => k a
  | Raise e => Raise e
  end.

Notation "'let!' x ← m ; k" := (bind m (λ x, k))
  (at level 10, x name, m at level 100, k at level 200,
   format "'[v' 'let!'  x  ←  m ; '/' k ']'").

(** [for x in l: s = body x s], stopping at the first exception. *)
Fixpoint for_each {A S} (l : list A) (body : A → S → res S) (s : S) : res S :=
  match l with
  | [] => Ok s
  | x :: l' => let! s' ← body x s; for_each l' body s'
  end.

(** [range(a, b)] and [range(b)]. *)
Definition range2 (a b : nat) : list nat := seq a (b - a).
Definition range (b : nat) : list nat := range2 0 b.

(** [p[i]] raises [IndexError] out of range. *)
Definition getitem (p : pyseq) (i : nat) : res str :=
  match items p !! i with
  | Some x => Ok x
  | None => Raise IndexError
  end.

(** ** Grammars and the table *)

(** A [dict] from non-terminals to lists of bodies, in insertion order,
    which [items()] follows. *)
Abbreviation normes := (list (str * list pyseq)).

(** Keys of a [dict] are unique. *)
Definition dict_wf (g : normes) : Prop := NoDup (g.*1).

(** [k in d] and [d[k]]. *)
Fixpoint dict_get (g : normes) (k : str) : option (list pyseq) :=
  match g with
  | [] => None
  | (k', v) :: g' => if decide (k' = k) then Some v else dict_get g' k
  end.

Definition dict_in (g : normes) (k : str) : bool :=
  match dict_get g k with Some _ => true | None => false end.

Definition dict_index (g : normes) (k : str) : res (list pyseq) :=
  match dict_get g k with
  | Some v => Ok v
  | None => Raise KeyError
  end.

Abbreviation cella := (gset str).
Abbreviation taula := (list (list (gset str))).
Abbreviation index_binari := (gmap (str * str) (gset str)).

(** [[[set() for _ in range(n)] for _ in range(n)]] *)
Definition taula_nova (n : nat) : taula :=
  (λ _, (λ _, (∅ : cella)) <$> range n) <$> range n.

(** [taula[i][j]] *)
Definition taula_get (t : taula) (i j : nat) : res cella :=
  match t !! i with
  | Some fila =>
      match fila !! j with
      | Some c => Ok c
      | None => Raise IndexError
      end
  | None => Raise IndexError
  end.

(** [taula[i][j].update(s)]; [taula[i][j].add(a)] is the case of a
    singleton. *)
Definition taula_update (t : taula) (i j : nat) (s : gset str) : res taula :=
  match t !! i with
  | Some fila =>
      match fila !! j with
      | Some c => Ok (<[i := <[j := c ∪ s]> fila]> t)
      | None => Raise IndexError
      end
  | None => Raise IndexError
  end.

Definition taula_add (t : taula) (i j : nat) (a : str) : res taula :=
  taula_update t i j {[a]}.

(** ** [src/cky.py] *)

Module Cky.

Record Gramatica := {
  gramatica : normes;
  regles_binaries : index_binari;
  simbol_arrel : str
}.

(** The body of the inner loop of [_preprocessar_regles_binaries]. *)
Definition indexar_produccio (no_terminal : str) (produccio : pyseq)
    (regles : index_binari) : res index_binari :=
  if decide (len produccio = 2) then
    let! esq ← getitem produccio 0;
    let! dre ← getitem produccio 1;
    let clau := (esq, dre) in
    let regles :=
      match regles !! clau with
      | None => <[clau := ∅]> regles
      | Some _ => regles
      end in
    match regles !! clau with
    | Some s => Ok (<[clau := s ∪ {[no_terminal]}]> regles)
    | None => Raise KeyError
    end
  else Ok regles.

Definition _preprocessar_regles_binaries (g : normes) : res index_binari :=
  for_each g (λ '(no_terminal, produccions) regles,
    for_each produccions (indexar_produccio no_terminal) regles) ∅.

(** [__init__]; [deepcopy] of an immutable value is that value. *)
Definition __init__ (normes_gramatica : normes) (simbol_arrel : str)
    : res Gramatica :=
  let! regles ← _preprocessar_regles_binaries normes_gramatica;
  Ok {| gramatica := normes_gramatica;
        regles_binaries := regles;
        simbol_arrel := simbol_arrel |}.

(** [len(produccio) == 1 and produccio[0] in ['ε', '']] *)
Definition es_buida (produccio : pyseq) : res bool :=
  if decide (len produccio = 1) then
    let! x ← getitem produccio 0;
    Ok (bool_decide (x ∈ [epsilon; buit]))
  else Ok false.

(** The loop returns at the first body that qualifies. *)
Fixpoint alguna_buida (produccions : list pyseq) : res bool :=
  match produccions with
  | [] => Ok false
  | produccio :: resta =>
      let! b ← es_buida produccio;
      if b then Ok true else alguna_buida resta
  end.

Definition _comprovar_derivacio_buida (self : Gramatica) : res bool :=
  if dict_in (gramatica self) (simbol_arrel self) then
    let! produccions ← dict_index (gramatica self) (simbol_arrel self);
    alguna_buida produccions
  else Ok false.

(** [len(produccio) == 1 and produccio[0] == paraula] *)
Definition es_terminal (produccio : pyseq) (paraula : str) : res bool :=
  if decide (len produccio = 1) then
    let! x ← getitem produccio 0;
    Ok (bool_decide (x = paraula))
  else Ok false.

(** First loop of [algoritme_cky], at column [col]. *)
Definition omplir_base (g : normes) (frase : pyseq) (col : nat)
    (t : taula) : res taula :=
  let! paraula ← getitem frase col;
  for_each g (λ '(no_terminal, produccions) t,
    for_each produccions (λ produccio t,
      let! b ← es_terminal produccio paraula;
      if b then taula_add t col col no_terminal else Ok t) t) t.

(** The two innermost loops, over the two parts in the order they are
    iterated: every pair is looked up in the index.  A Python set may
    not grow while it is iterated; here an update of one of the two
    parts raises [RuntimeError] at once, whether the set grows or not. *)
Definition recorrer (regles : index_binari) (diag col k : nat)
    (ordre_diag ordre_col : list str) (t : taula) : res taula :=
  for_each ordre_diag (λ no_terminal_diag t,
    for_each ordre_col (λ no_termina_col t,
      let clau := (no_terminal_diag, no_termina_col) in
      match regles !! clau with
      | Some s =>
          if bool_decide (diag + k = col ∨ diag + k + 1 = diag)
          then Raise RuntimeError
          else taula_update t diag col s
      | None => Ok t
      end) t) t.

(** A set is iterated in the order of its [elements]. *)
Definition combinar (regles : index_binari) (diag col k : nat)
    (part_diag part_col : gset str) (t : taula) : res taula :=
  recorrer regles diag col k (elements part_diag) (elements part_col) t.

(** The body of the loop over the split points [k]. *)
Definition provar_divisio (regles : index_binari) (diag col k : nat)
    (t : taula) : res taula :=
  let! part_diag ← taula_get t diag (diag + k);
  let! part_col ← taula_get t (diag + k + 1) col;
  if bool_decide (part_diag = ∅) || bool_decide (part_col = ∅) then Ok t
  else combinar regles diag col k part_diag part_col t.

(** Second loop of [algoritme_cky]. *)
Definition omplir_resta (regles : index_binari) (n : nat) (t : taula)
    : res taula :=
  for_each (range2 1 n) (λ n_fila t,
    for_each (range (n - n_fila)) (λ diag t,
      let col := diag + n_fila in
      for_each (range n_fila) (provar_divisio regles diag col) t) t) t.

(** Past the first test [n] is positive, so [n - 1] is no negative
    index. *)
Definition algoritme_cky (self : Gramatica) (frase : pyseq) : res bool :=
  if is_falsy frase then _comprovar_derivacio_buida self
  else
    let n := len frase in
    let t := taula_nova n in
    let! t ← for_each (range n) (omplir_base (gramatica self) frase) t;
    let! t ← omplir_resta (regles_binaries self) n t;
    let! c ← taula_get t 0 (n - 1);
    Ok (bool_decide (simbol_arrel self ∈ c)).

(** Construction followed by recognition. *)
Definition recognize (g : normes) (arrel : str) (frase : pyseq)
    : res bool :=
  let! self ← __init__ g arrel;
  algoritme_cky self frase.

(** [' '.join(map(str, produccio))] puts spaces between the symbols of a
    body, whether the body is a string or a list. *)
Definition cos_str (produccio : pyseq) : str :=
  join (lit " ") (items produccio).

(** The line of [__str__] for one key. *)
Definition linia (no_terminal : str) (produccions : list pyseq) : str :=
  no_terminal ++ lit " -> " ++ join (lit ", ") (cos_str <$> produccions).

(** [__str__]: one line per key, in the order of the keys. *)
Definition __str__ (self : Gramatica) : str :=
  join [10%N]
    ((λ '(no_terminal, produccions), linia no_terminal produccions)
     <$> gramatica self).

End Cky.

(** ** [src/main.py] *)

Module Main.

(** The object starts with every attribute [None]; [carregar_gramatica]
    sets them. *)
Record Gramatica := {
  gramatica : option normes;
  regles_binaries : option index_binari;
  simbol_arrel : option str
}.

Definition __init__ : Gramatica :=
  {| gramatica := None; regles_binaries := None; simbol_arrel := None |}.

Definition indexar_produccio (no_terminal : str) (produccio : pyseq)
    (regles : index_binari) : res index_binari :=
  if decide (len produccio = 2) then
    let! esq ← getitem produccio 0;
    let! dre ← getitem produccio 1;
    let clau := (esq, dre) in
    let regles :=
      match regles !! clau with
      | None => <[clau := ∅]> regles
      | Some _ => regles
      end in
    match regles !! clau with
    | Some s => Ok (<[clau := s ∪ {[no_terminal]}]> regles)
    | None => Raise KeyError
    end
  else Ok regles.

(** [self.gramatica.items()] on [None] is an [AttributeError]. *)
Definition _preprocessar_gramatica (self : Gramatica) : res index_binari :=
  match gramatica self with
  | None => Raise AttributeError
  | Some g =>
      for_each g (λ '(no_terminal, produccions) regles,
        for_each produccions (indexar_produccio no_terminal) regles) ∅
  end.

Definition carregar_gramatica (self : Gramatica)
    (normes_gramatica : normes) (simbol_arrel : str) : res Gramatica :=
  let self := {| gramatica := Some normes_gramatica;
                 regles_binaries := regles_binaries self;
                 simbol_arrel := Main.simbol_arrel self |} in
  let! regles ← _preprocessar_gramatica self;
  Ok {| gramatica := gramatica self;
        regles_binaries := Some regles;
        simbol_arrel := Some simbol_arrel |}.

(** The loop returns at the first body equal to [''].  *)
Fixpoint alguna_buida (produccions : list pyseq) : bool :=
  match produccions with
  | [] => false
  | produccio :: resta =>
      if eq_str produccio buit then true else alguna_buida resta
  end.

(** [x in None] is a [TypeError]; an unloaded start symbol is [None],
    which is no key of a loaded grammar. *)
Definition _comprovar_derivacio_buida (self : Gramatica) : res bool :=
  match gramatica self with
  | None => Raise TypeError
  | Some g =>
      match simbol_arrel self with
      | None => Ok false
      | Some arrel =>
          if dict_in g arrel then
            let! produccions ← dict_index g arrel;
            Ok (alguna_buida produccions)
          else Ok false
      end
  end.

Definition es_terminal (produccio : pyseq) (paraula : str) : res bool :=
  if decide (len produccio = 1) then
    let! x ← getitem produccio 0;
    Ok (bool_decide (x = paraula))
  else Ok false.

Definition omplir_base (self : Gramatica) (frase : pyseq) (col : nat)
    (t : taula) : res taula :=
  let! paraula ← getitem frase col;
  match gramatica self with
  | None => Raise AttributeError
  | Some g =>
      for_each g (λ '(no_terminal, produccions) t,
        for_each produccions (λ produccio t,
          let! b ← es_terminal produccio paraula;
          if b then taula_add t col col no_terminal else Ok t) t) t
  end.

(** [clau in None] is a [TypeError]. *)
Definition recorrer (self : Gramatica) (diag col k : nat)
    (ordre_diag ordre_col : list str) (t : taula) : res taula :=
  for_each ordre_diag (λ no_terminal_diag t,
    for_each ordre_col (λ no_termina_col t,
      let clau := (no_terminal_diag, no_termina_col) in
      match regles_binaries self with
      | None => Raise TypeError
      | Some regles =>
          match regles !! clau with
          | Some s =>
              if bool_decide (diag + k = col ∨ diag + k + 1 = diag)
              then Raise RuntimeError
              else taula_update t diag col s
          | None => Ok t
          end
      end) t) t.

Definition combinar (self : Gramatica) (diag col k : nat)
    (part_diag part_col : gset str) (t : taula) : res taula :=
  recorrer self diag col k (elements part_diag) (elements part_col) t.

Definition provar_divisio (self : Gramatica) (diag col k : nat)
    (t : taula) : res taula :=
  let! part_diag ← taula_get t diag (diag + k);
  let! part_col ← taula_get t (diag + k + 1) col;
  if bool_decide (part_diag = ∅) || bool_decide (part_col = ∅) then Ok t
  else combinar self diag col k part_diag part_col t.

Definition omplir_resta (self : Gramatica) (n : nat) (t : taula)
    : res taula :=
  for_each (range2 1 n) (λ n_fila t,
    for_each (range (n - n_fila)) (λ diag t,
      let col := diag + n_fila in
      for_each (range n_fila) (provar_divisio self diag col) t) t) t.

(** [None in taula[0][n-1]] is [False]: [None] hashes and is no
    string. *)
Definition algoritme_cky (self : Gramatica) (frase : pyseq) : res bool :=
  if is_falsy frase then _comprovar_derivacio_buida self
  else
    let n := len frase in
    let t := taula_nova n in
    let! t ← for_each (range n) (omplir_base self frase) t;
    let! t ← omplir_resta self n t;
    let! c ← taula_get t 0 (n - 1);
    Ok (match simbol_arrel self with
        | Some arrel => bool_decide (arrel ∈ c)
        | None => false
        end).

(** The use in [main]: an object is made, loaded and queried. *)
Definition recognize (g : normes) (arrel : str) (frase : pyseq)
    : res bool :=
  let! self ← carregar_gramatica __init__ g arrel;
  algoritme_cky self frase.

(** [', '.join(produccions)] takes strings only: a body that is a list
    is a [TypeError]. *)
Fixpoint unir_cossos (produccions : list pyseq) : res (list str) :=
  match produccions with
  | [] => Ok []
  | PStr s :: resta =>
      let! cossos ← unir_cossos resta;
      Ok (s :: cossos)
  | PList _ :: _ => Raise TypeError
  end.

(** The lines of [__str__], one per key, in the order of the keys. *)
Fixpoint linies (g : normes) : res (list str) :=
  match g with
  | [] => Ok []
  | (no_terminal, produccions) :: resta =>
      let! cossos ← unir_cossos produccions;
      let! altres ← linies resta;
      Ok ((no_terminal ++ lit " -> " ++ join (lit ", ") cossos) :: altres)
  end.

(** The message of an object that has not been loaded. *)
Definition cap_gramatica : str :=
  lit "No s'ha carregat cap gram" ++ [224%N] ++ lit "tica.".

Definition __str__ (self : Gramatica) : res str :=
  match gramatica self with
  | None => Ok cap_gramatica
  | Some g =>
      let! ls ← linies g;
      Ok (join [10%N] ls)
  end.

(** The two grammars of the driver; their bodies are strings. *)
Definition create_grammar_g1 : normes :=
  [ (lit "S", [PStr (lit "a"); PStr (lit "XA"); PStr (lit "AX"); PStr (lit "b")]);
    (lit "A", [PStr (lit "RB")]);
    (lit "B", [PStr (lit "AX"); PStr (lit "b"); PStr (lit "a")]);
    (lit "X", [PStr (lit "a")]);
    (lit "R", [PStr (lit "XB")]) ].

Definition create_grammar_g2 : normes :=
  [ (lit "S", [PStr (lit "AB"); PStr (lit "CD"); PStr (lit "CB"); PStr (lit "SS")]);
    (lit "A", [PStr (lit "BC"); PStr (lit "a")]);
    (lit "B", [PStr (lit "SC"); PStr (lit "b")]);
    (lit "C", [PStr (lit "DD"); PStr (lit "b")]);
    (lit "D", [PStr (lit "BA")]) ].

End Main.

(** ** The recogniser without the pruning step *)

Module SensePoda.

(** [provar_divisio] without the test [if not part_diag or not
    part_col: continue]. *)
Definition provar_divisio (regles : index_binari) (diag col k : nat)
    (t : taula) : res taula :=
  let! part_diag ← taula_get t diag (diag + k);
  let! part_col ← taula_get t (diag + k + 1) col;
  Cky.combinar regles diag col k part_diag part_col t.

Definition omplir_resta (regles : index_binari) (n : nat) (t : taula)
    : res taula :=
  for_each (range2 1 n) (λ n_fila t,
    for_each (range (n - n_fila)) (λ diag t,
      let col := diag + n_fila in
      for_each (range n_fila) (provar_divisio regles diag col) t) t) t.

Definition algoritme_cky (self : Cky.Gramatica) (frase : pyseq) : res bool :=
  if is_falsy frase then Cky._comprovar_derivacio_buida self
  else
    let n := len frase in
    let t := taula_nova n in
    let! t ← for_each (range n) (Cky.omplir_base (Cky.gramatica self) frase) t;
    let! t ← omplir_resta (Cky.regles_binaries self) n t;
    let! c ← taula_get t 0 (n - 1);
    Ok (bool_decide (Cky.simbol_arrel self ∈ c)).

Definition recognize (g : normes) (arrel : str) (frase : pyseq)
    : res bool :=
  let! self ← Cky.__init__ g arrel;
  algoritme_cky self frase.

End SensePoda.

(** ** Notions used to state the properties *)

(** Two nested loops over a grammar visit its rules, the pairs of a
    non-terminal and one of its bodies, in order. *)
Definition regles (g : normes) : list (str * pyseq) :=
  g ≫= λ '(no_terminal, produccions), (no_terminal,.) <$> produccions.

(** [n] rows of [n] cells. *)
Definition quadrada (n : nat) (t : taula) : Prop :=
  length t = n ∧ ∀ i fila, t !! i = Some fila → length fila = n.

(** The cell at [(i, j)], empty outside the table. *)
Definition cell (t : taula) (i j : nat) : gset str :=
  default ∅ (t !! i ≫= (.!! j)).

(** The invariant of the second loop: the table stays square and holds
    only non-terminals with the property [P]. *)
Definition taula_inv (n : nat) (P : str → Prop) (t : taula) : Prop :=
  quadrada n t ∧ ∀ i j x, x ∈ cell t i j → P x.

(** The non-terminals the index holds for a key. *)
Definition derivadors (regles : index_binari) (clau : str * str) : gset str :=
  default ∅ (regles !! clau).

(** The pure content of [indexar_produccio]. *)
Definition indexar_pur (no_terminal : str) (produccio : pyseq)
    (regles : index_binari) : index_binari :=
  match items produccio with
  | [esq; dre] =>
      <[(esq, dre) := derivadors regles (esq, dre) ∪ {[no_terminal]}]> regles
  | _ => regles
  end.

(** The index after the rules [rs] are added to [rb], in order. *)
Definition index_de (rs : list (str * pyseq)) (rb : index_binari)
    : index_binari :=
  foldl (λ rb '(a, p), indexar_pur a p rb) rb rs.

(** No key of the index holds the empty set. *)
Definition sense_buits (rb : index_binari) : Prop :=
  ∀ clau, rb !! clau ≠ Some ∅.

(** [a] has a unit production whose only symbol is [w]. *)
Definition regla_terminal (g : normes) (a w : str) : Prop :=
  ∃ p, (a, p) ∈ regles g ∧ items p = [w].

(** [a] has a binary production with body [b c]. *)
Definition regla_binaria (g : normes) (a b c : str) : Prop :=
  ∃ p, (a, p) ∈ regles g ∧ items p = [b; c].

(** The body that cky.py takes for the empty production: one symbol,
    the letter epsilon or the empty string. *)
Definition cos_sentinella (p : pyseq) : Prop :=
  items p = [epsilon] ∨ items p = [buit].

(** The body that main.py takes for the empty production: the empty
    string itself. *)
Definition cos_cadena_buida (p : pyseq) : Prop := p = PStr buit.

(** Two grammars agree on their unit and binary productions. *)
Definition mateixes_regles (g g' : normes) : Prop :=
  ∀ a p, len p = 1 ∨ len p = 2 → (a, p) ∈ regles g ↔ (a, p) ∈ regles g'.

(** The claim of the specification on the empty sentence reads the empty
    body as a body of no symbols. *)
Definition te_cos_buit (g : normes) (arrel : str) : Prop :=
  ∃ p, (arrel, p) ∈ regles g ∧ len p = 0.

(** G1 with its keys and its bodies in another order. *)
Definition g1_reordenada : normes :=
  [ (lit "R", [PStr (lit "XB")]);
    (lit "B", [PStr (lit "a"); PStr (lit "AX"); PStr (lit "b")]);
    (lit "S", [PStr (lit "b"); PStr (lit "AX"); PStr (lit "XA"); PStr (lit "a")]);
    (lit "X", [PStr (lit "a")]);
    (lit "A", [PStr (lit "RB")]) ].

(** G2 with every body as the list of its characters. *)
Definition g2_llistes : normes :=
  [ (lit "S", [PList [lit "A"; lit "B"]; PList [lit "C"; lit "D"];
               PList [lit "C"; lit "B"]; PList [lit "S"; lit "S"]]);
    (lit "A", [PList [lit "B"; lit "C"]; PList [lit "a"]]);
    (lit "B", [PList [lit "S"; lit "C"]; PList [lit "b"]]);
    (lit "C", [PList [lit "D"; lit "D"]; PList [lit "b"]]);
    (lit "D", [PList [lit "B"; lit "A"]]) ].

(** Two grammars with the same keys in the same order and, under each
    key, bodies with the same symbols in the same order: a body may be a
    string in one and the list of its characters in the other. *)
Definition mateixos_simbols (g g' : normes) : Prop :=
  Forall2 (λ e e', e.1 = e'.1 ∧
                   Forall2 (λ p p', items p = items p') e.2 e'.2) g g'.

(** ** Derivations *)

(** What the recogniser takes a grammar to generate: a body of one symbol
    derives the word equal to that symbol, a body of two symbols derives
    what its two symbols, read as non-terminals, derive side by side.
    Bodies of any other length generate nothing. *)
Inductive deriva (g : normes) : str → list str → Prop :=
| deriva_terminal a w :
    regla_terminal g a w → deriva g a [w]
| deriva_binaria a b c u v :
    regla_binaria g a b c → deriva g b u → deriva g c v →
    deriva g a (u ++ v).

(** The same for the words of [ws] from position [i] to position [j],
    both included. *)
Inductive deriva_tram (g : normes) (ws : list str) : str → nat → nat → Prop :=
| tram_terminal a w i :
    ws !! i = Some w → regla_terminal g a w → deriva_tram g ws a i i
| tram_binaria a b c i k j :
    regla_binaria g a b c →
    deriva_tram g ws b i k → deriva_tram g ws c (S k) j →
    deriva_tram g ws a i j.

(** The words of [ws] from position [i] to position [j], both included. *)
Definition tram (ws : list str) (i j : nat) : list str :=
  take (S j - i) (drop i ws).

(** ** Loops *)

Section loops.
Context {A S : Type}.
Implicit Types (l : list A) (body : A → S → res S) (s : S).

Lemma for_each_app l1 l2 body s :
  for_each (l1 ++ l2) body s =
  let! s' ← for_each l1 body s; for_each l2 body s'.
Proof.
  revert s. induction l1 as [|x l1 IH]; intros s; simpl; [done|].
  destruct (body x s); simpl; auto.
Qed.

Lemma for_each_ext l body1 body2 s :
  (∀ x s, x ∈ l → body1 x s = body2 x s) →
  for_each l body1 s = for_each l body2 s.
Proof.
  revert s. induction l as [|x l IH]; intros s Hext; simpl; [done|].
  rewrite Hext by left. destruct (body2 x s); simpl; [|done].
  apply IH. intros y s' Hy. apply Hext. by right.
Qed.

Lemma for_each_skip l s : for_each l (λ _ s, Ok s) s = Ok s.
Proof. induction l; simpl; auto. Qed.

(** A loop whose body keeps an invariant and never raises keeps the
    invariant and does not raise. *)
Lemma for_each_inv (I : S → Prop) l body s :
  I s →
  (∀ x s, x ∈ l → I s → ∃ s', body x s = Ok s' ∧ I s') →
  ∃ s', for_each l body s = Ok s' ∧ I s'.
Proof.
  revert s. induction l as [|x l IH]; intros s Hs Hbody; simpl; [eauto|].
  destruct (Hbody x s) as (s' & -> & Hs'); [left|done|]. simpl.
  apply IH; [done|]. intros y s'' Hy. apply Hbody. by right.
Qed.

(** The same with an invariant that knows the elements already
    visited. *)
Lemma for_each_inv_prefix (I : list A → S → Prop) l body s :
  I [] s →
  (∀ l1 x l2 s, l = l1 ++ x :: l2 → I l1 s →
     ∃ s', body x s = Ok s' ∧ I (l1 ++ [x]) s') →
  ∃ s', for_each l body s = Ok s' ∧ I l s'.
Proof.
  intros Hs Hbody.
  assert (∀ l2 l1 s, l = l1 ++ l2 → I l1 s →
            ∃ s', for_each l2 body s = Ok s' ∧ I l s') as Hgen.
  { induction l2 as [|x l2 IH]; intros l1 s0 -> H1; simpl.
    - rewrite app_nil_r. eauto.
    - destruct (Hbody l1 x l2 s0) as (s' & -> & Hs'); [done..|]. simpl.
      apply (IH (l1 ++ [x])); [by rewrite <-app_assoc|done]. }
  by apply (Hgen l []).
Qed.
End loops.

Lemma for_each_regles {S} (g : normes) (f : str → pyseq → S → res S) s :
  for_each g (λ '(no_terminal, produccions) s,
    for_each produccions (f no_terminal) s) s =
  for_each (regles g) (λ '(no_terminal, produccio), f no_terminal produccio) s.
Proof.
  revert s. induction g as [|[a ps] g IH]; intros s; [done|].
  unfold regles. rewrite bind_cons. fold (regles g).
  rewrite for_each_app. simpl.
  assert (for_each ((a,.) <$> ps) (λ '(n, p), f n p) s = for_each ps (f a) s)
    as ->.
  { clear. revert s. induction ps as [|p ps IH]; intros s; simpl; [done|].
    destruct (f a p s); simpl; auto. }
  destruct (for_each ps (f a) s); simpl; auto.
Qed.

Lemma elem_of_regles (g : normes) a p :
  (a, p) ∈ regles g ↔ ∃ ps, (a, ps) ∈ g ∧ p ∈ ps.
Proof.
  unfold regles. rewrite list_elem_of_bind. split.
  - intros ([a' ps] & Hin & Hg). apply list_elem_of_fmap in Hin as (p' & [= -> ->] & Hp).
    eauto.
  - intros (ps & Hg & Hp). exists (a, ps). split; [|done].
    apply list_elem_of_fmap. eauto.
Qed.

Lemma regles_clau (g : normes) a p : (a, p) ∈ regles g → a ∈ g.*1.
Proof.
  rewrite elem_of_regles. intros (ps & Hg & _).
  apply list_elem_of_fmap. by exists (a, ps).
Qed.

(** ** The table *)

Lemma quadrada_nova n : quadrada n (taula_nova n).
Proof.
  unfold taula_nova, range, range2. split.
  - rewrite length_fmap, length_seq. lia.
  - intros i fila Hi. apply list_lookup_fmap_Some in Hi as (x & -> & _).
    rewrite length_fmap, length_seq. lia.
Qed.

Lemma cell_nova n i j : cell (taula_nova n) i j = ∅.
Proof.
  unfold cell, taula_nova.
  destruct (_ !! i) as [fila|] eqn:Hi; simpl; [|done].
  apply list_lookup_fmap_Some in Hi as (x & -> & _).
  destruct (_ !! j) as [c|] eqn:Hj; simpl; [|done].
  by apply list_lookup_fmap_Some in Hj as (y & -> & _).
Qed.

Lemma taula_get_ok n t i j :
  quadrada n t → i < n → j < n → taula_get t i j = Ok (cell t i j).
Proof.
  intros [Hlen Hfiles] Hi Hj. unfold taula_get, cell.
  destruct (lookup_lt_is_Some_2 t i) as [fila Hfila]; [lia|].
  rewrite Hfila. simpl.
  destruct (lookup_lt_is_Some_2 fila j) as [c Hc].
  { rewrite (Hfiles _ _ Hfila). lia. }
  by rewrite Hc.
Qed.

Lemma taula_update_ok n t i j s :
  quadrada n t → i < n → j < n →
  ∃ t', taula_update t i j s = Ok t' ∧ quadrada n t' ∧
    ∀ i' j', cell t' i' j' =
      if decide (i' = i ∧ j' = j) then cell t i j ∪ s else cell t i' j'.
Proof.
  intros [Hlen Hfiles] Hi Hj. unfold taula_update.
  destruct (lookup_lt_is_Some_2 t i) as [fila Hfila]; [lia|].
  assert (length fila = n) as Hn by eauto.
  destruct (lookup_lt_is_Some_2 fila j) as [c Hc]; [lia|].
  rewrite Hfila, Hc. eexists. split; [done|]. split.
  - split; [by rewrite length_insert|].
    intros i' fila' Hi'. destruct (decide (i' = i)) as [->|Hne].
    + rewrite list_lookup_insert_eq in Hi' by lia.
      injection Hi' as <-. by rewrite length_insert.
    + rewrite list_lookup_insert_ne in Hi' by done. eauto.
  - intros i' j'. unfold cell. destruct (decide (i' = i)) as [->|Hne].
    + rewrite list_lookup_insert_eq by lia. rewrite Hfila. simpl.
      destruct (decide (j' = j)) as [->|Hne'].
      * rewrite list_lookup_insert_eq by lia. rewrite Hc.
        by rewrite decide_True.
      * rewrite list_lookup_insert_ne by done.
        rewrite decide_False; [done|by intros [? ?]].
    + rewrite list_lookup_insert_ne by done.
      rewrite decide_False; [done|by intros [? ?]].
Qed.

(** A square table is determined by its cells. *)
Lemma taula_ext n t1 t2 :
  quadrada n t1 → quadrada n t2 →
  (∀ i j, i < n → j < n → cell t1 i j = cell t2 i j) →
  t1 = t2.
Proof.
  intros [Hlen1 Hf1] [Hlen2 Hf2] Hcell.
  apply list_eq_same_length with n; [done..|].
  intros i fila1 fila2 Hi H1 H2.
  apply list_eq_same_length with n; [eauto..|].
  intros j c1 c2 Hj Hc1 Hc2.
  specialize (Hcell i j Hi Hj). unfold cell in Hcell.
  by rewrite H1, H2 in Hcell; simpl in Hcell; rewrite Hc1, Hc2 in Hcell.
Qed.

(** ** The index of binary rules *)

Lemma indexar_produccio_ok (a : str) (p : pyseq) (rb : index_binari) :
  Cky.indexar_produccio a p rb = Ok (indexar_pur a p rb).
Proof.
  unfold Cky.indexar_produccio, indexar_pur, len, getitem, derivadors.
  destruct (items p) as [|e [|d [|x l]]]; simpl; try done.
  destruct (rb !! (e, d)) as [s|] eqn:Hs; simpl.
  - by rewrite Hs.
  - rewrite lookup_insert_eq. by rewrite insert_insert_eq.
Qed.

Lemma preprocessar_ok (g : normes) :
  Cky._preprocessar_regles_binaries g = Ok (index_de (regles g) ∅).
Proof.
  unfold Cky._preprocessar_regles_binaries. rewrite for_each_regles.
  generalize (∅ : index_binari). induction (regles g) as [|[a p] rs IH];
    intros rb; simpl; [done|].
  rewrite indexar_produccio_ok. simpl. apply IH.
Qed.

Lemma derivadors_indexar (a : str) (p : pyseq) rb clau x :
  x ∈ derivadors (indexar_pur a p rb) clau ↔
  x ∈ derivadors rb clau ∨ (x = a ∧ items p = [clau.1; clau.2]).
Proof.
  unfold indexar_pur. destruct clau as [b c]. simpl.
  destruct (items p) as [|e [|d [|y l]]]; try naive_solver.
  unfold derivadors at 1. destruct (decide ((e, d) = (b, c))) as [[= -> ->]|Hne].
  - rewrite lookup_insert_eq. simpl. set_solver.
  - rewrite lookup_insert_ne by done. fold (derivadors rb (b, c)).
    naive_solver.
Qed.

Lemma derivadors_index_de rs rb clau x :
  x ∈ derivadors (index_de rs rb) clau ↔
  x ∈ derivadors rb clau ∨
  ∃ p, (x, p) ∈ rs ∧ items p = [clau.1; clau.2].
Proof.
  revert rb. induction rs as [|[a p] rs IH]; intros rb; simpl.
  - split; [auto|]. intros [?|(p & Hp & _)]; [done|]. by apply elem_of_nil in Hp.
  - rewrite IH, derivadors_indexar. split.
    + intros [[?|[-> ?]]|(q & Hq & ?)]; [by left|right..].
      * exists p. split; [left|done].
      * exists q. split; [by right|done].
    + intros [?|(q & Hq & ?)]; [by left; left|].
      apply elem_of_cons in Hq as [[= -> ->]|Hq]; [left; right; done|].
      right. eauto.
Qed.

(** The index holds, for each pair, the non-terminals with that binary
    body. *)
Lemma index_ok (g : normes) (a b c : str) :
  a ∈ derivadors (index_de (regles g) ∅) (b, c) ↔ regla_binaria g a b c.
Proof.
  rewrite derivadors_index_de. unfold regla_binaria, derivadors.
  rewrite lookup_empty. simpl. set_solver.
Qed.

Lemma sense_buits_indexar (a : str) (p : pyseq) rb :
  sense_buits rb → sense_buits (indexar_pur a p rb).
Proof.
  intros Hrb clau. unfold indexar_pur.
  destruct (items p) as [|e [|d [|y l]]]; try apply Hrb.
  destruct (decide ((e, d) = clau)) as [<-|Hne].
  - rewrite lookup_insert_eq. intros [= Heq]. set_solver.
  - rewrite lookup_insert_ne by done. apply Hrb.
Qed.

Lemma sense_buits_index_de rs rb :
  sense_buits rb → sense_buits (index_de rs rb).
Proof.
  revert rb. induction rs as [|[a p] rs IH]; intros rb Hrb; simpl; [done|].
  by apply IH, sense_buits_indexar.
Qed.

(** The index is determined by its content. *)
Lemma index_ext (rb1 rb2 : index_binari) :
  sense_buits rb1 → sense_buits rb2 →
  (∀ clau, derivadors rb1 clau = derivadors rb2 clau) →
  rb1 = rb2.
Proof.
  intros H1 H2 Heq. apply map_eq. intros clau.
  specialize (Heq clau). specialize (H1 clau). specialize (H2 clau).
  unfold derivadors in Heq.
  destruct (rb1 !! clau) as [s1|], (rb2 !! clau) as [s2|]; simpl in *;
    congruence.
Qed.

(** ** The base case *)

Lemma es_terminal_ok (p : pyseq) (w : str) :
  Cky.es_terminal p w = Ok (bool_decide (items p = [w])).
Proof.
  unfold Cky.es_terminal, len, getitem.
  destruct (items p) as [|x [|y l]]; simpl; try done.
  - f_equal. apply bool_decide_ext. naive_solver.
  - by rewrite bool_decide_false.
Qed.

Lemma omplir_base_ok (g : normes) frase n col t w :
  quadrada n t → col < n → items frase !! col = Some w →
  ∃ t', Cky.omplir_base g frase col t = Ok t' ∧ quadrada n t' ∧
    ∀ i j x, x ∈ cell t' i j ↔
      x ∈ cell t i j ∨ (i = col ∧ j = col ∧ regla_terminal g x w).
Proof.
  intros Ht Hcol Hw. unfold Cky.omplir_base, getitem. rewrite Hw. simpl.
  rewrite (for_each_regles g (λ a p t,
    let! b ← Cky.es_terminal p w; if b then taula_add t col col a else Ok t)).
  unfold regla_terminal. revert t Ht.
  induction (regles g) as [|[a p] rs IH]; intros t Ht; simpl.
  - exists t. split; [done|]. split; [done|]. intros i j x.
    split; [auto|]. intros [?|(_ & _ & q & Hq & _)]; [done|].
    by apply elem_of_nil in Hq.
  - rewrite es_terminal_ok. simpl. case_bool_decide as Hp.
    + destruct (taula_update_ok n t col col {[a]} Ht Hcol Hcol)
        as (t1 & Hup & Ht1 & Hcell).
      unfold taula_add. rewrite Hup. simpl.
      destruct (IH t1 Ht1) as (t' & Hfor & Ht' & Hcell').
      exists t'. split; [exact Hfor|]. split; [done|]. intros i j x.
      rewrite Hcell', Hcell. case_decide as Hij.
      * destruct Hij as [-> ->]. rewrite elem_of_union, elem_of_singleton.
        split.
        -- intros [[?| ->]|(_ & _ & q & Hq & ?)]; [by left|right..].
           ++ split; [done|]. split; [done|]. exists p. split; [left|done].
           ++ split; [done|]. split; [done|]. exists q. split; [by right|done].
        -- intros [?|(_ & _ & q & Hq & ?)]; [by left; left|].
           apply elem_of_cons in Hq as [[= -> ->]|Hq]; [left; by right|].
           right. eauto.
      * split.
        -- intros [?|(? & ? & _)]; [by left|]. naive_solver.
        -- intros [?|(? & ? & _)]; [by left|]. naive_solver.
    + destruct (IH t Ht) as (t' & Hfor & Ht' & Hcell').
      exists t'. split; [exact Hfor|]. split; [done|]. intros i j x.
      rewrite Hcell'. split.
      * intros [?|(? & ? & q & Hq & ?)]; [by left|right].
        split; [done|]. split; [done|]. exists q. split; [by right|done].
      * intros [?|(? & ? & q & Hq & ?)]; [by left|].
        apply elem_of_cons in Hq as [[= -> ->]|Hq]; [done|].
        right. eauto.
Qed.

Lemma elem_of_range n i : i ∈ range n ↔ i < n.
Proof. unfold range, range2. rewrite elem_of_seq. lia. Qed.

Lemma elem_of_range2 a b i : i ∈ range2 a b ↔ a ≤ i < b.
Proof. unfold range2. rewrite elem_of_seq. lia. Qed.

(** After the first loop the diagonal holds the non-terminals that derive
    the word at that position, and every other cell is empty. *)
Lemma base_ok (g : normes) (frase : pyseq) :
  ∃ t, for_each (range (len frase)) (Cky.omplir_base g frase)
         (taula_nova (len frase)) = Ok t ∧
    quadrada (len frase) t ∧
    ∀ i j x, x ∈ cell t i j ↔
      i = j ∧ ∃ w, items frase !! i = Some w ∧ regla_terminal g x w.
Proof.
  set (n := len frase).
  destruct (for_each_inv_prefix
    (λ fets t, quadrada n t ∧
       ∀ i j x, x ∈ cell t i j ↔
         i = j ∧ i ∈ fets ∧
         ∃ w, items frase !! i = Some w ∧ regla_terminal g x w)
    (range n) (Cky.omplir_base g frase) (taula_nova n))
    as (t & Hfor & Ht & Hcell).
  - split; [apply quadrada_nova|]. intros i j x. rewrite cell_nova.
    split; [set_solver|]. intros (_ & Hi & _). by apply elem_of_nil in Hi.
  - intros fets col l2 t Hrange [Ht Hcell].
    assert (col < n) as Hcol.
    { apply elem_of_range. rewrite Hrange. set_solver. }
    destruct (lookup_lt_is_Some_2 (items frase) col) as [w Hw]; [done|].
    destruct (omplir_base_ok g frase n col t w Ht Hcol Hw)
      as (t' & Ht' & Hq & Hcell').
    exists t'. split; [done|]. split; [done|]. intros i j x.
    rewrite Hcell', Hcell, elem_of_app, list_elem_of_singleton. split.
    + intros [(? & ? & ?)|(-> & -> & ?)]; [naive_solver|].
      split; [done|]. split; [by right|]. eauto.
    + intros (-> & [?| ->] & w' & Hw' & ?); [left; eauto|].
      right. split; [done|]. split; [done|]. congruence.
  - exists t. split; [done|]. split; [done|]. intros i j x.
    rewrite Hcell. split; [naive_solver|].
    intros (-> & w & Hw & ?). split; [done|]. split; [|eauto].
    apply elem_of_range. by apply lookup_lt_Some in Hw.
Qed.

(** ** The inductive case *)

Section resta.
Variable regles_b : index_binari.
Variable n : nat.
(** A property of the non-terminals the index can produce. *)
Variable P : str → Prop.
Hypothesis index_P : ∀ clau s x, regles_b !! clau = Some s → x ∈ s → P x.

Lemma combinar_inv diag col k part_diag part_col t :
  taula_inv n P t → diag + k < col → col < n →
  ∃ t', Cky.combinar regles_b diag col k part_diag part_col t = Ok t' ∧
        taula_inv n P t'.
Proof using index_P.
  intros Ht Hk Hcol. unfold Cky.combinar, Cky.recorrer.
  apply for_each_inv; [done|]. intros b t1 _ Ht1.
  apply for_each_inv; [done|]. intros c t2 _ [Hq2 HP2].
  destruct (regles_b !! (b, c)) as [s|] eqn:Hs; [|by exists t2].
  rewrite bool_decide_false by lia.
  destruct (taula_update_ok n t2 diag col s Hq2) as (t3 & -> & Hq3 & Hcell);
    [lia..|].
  exists t3. split; [done|]. split; [done|]. intros i j x.
  rewrite Hcell. case_decide; [|by apply HP2].
  rewrite elem_of_union. intros [?|?]; [by eapply HP2|by eapply index_P].
Qed.

Lemma provar_divisio_inv diag col k t :
  taula_inv n P t → diag + k < col → col < n →
  ∃ t', Cky.provar_divisio regles_b diag col k t = Ok t' ∧ taula_inv n P t'.
Proof using index_P.
  intros Ht Hk Hcol. unfold Cky.provar_divisio.
  rewrite (taula_get_ok n), (taula_get_ok n) by (try apply Ht; lia).
  simpl. destruct (_ || _); [by exists t|]. by apply combinar_inv.
Qed.

Lemma omplir_resta_inv t :
  taula_inv n P t →
  ∃ t', Cky.omplir_resta regles_b n t = Ok t' ∧ taula_inv n P t'.
Proof using index_P.
  intros Ht. unfold Cky.omplir_resta.
  apply for_each_inv; [done|]. intros n_fila t1 Hfila Ht1.
  apply elem_of_range2 in Hfila.
  apply for_each_inv; [done|]. intros diag t2 Hdiag Ht2.
  apply elem_of_range in Hdiag.
  apply for_each_inv; [done|]. intros k t3 Hk Ht3.
  apply elem_of_range in Hk.
  apply provar_divisio_inv; [done|lia..].
Qed.
End resta.

(** ** The boolean the recogniser returns *)

(** Every non-terminal the index holds is a key of the grammar. *)
Lemma index_claus (g : normes) clau s x :
  index_de (regles g) ∅ !! clau = Some s → x ∈ s → x ∈ g.*1.
Proof.
  intros Hs Hx.
  assert (x ∈ derivadors (index_de (regles g) ∅) clau) as Hd.
  { unfold derivadors. by rewrite Hs. }
  apply derivadors_index_de in Hd as [Hd|(p & Hp & _)].
  - unfold derivadors in Hd. by rewrite lookup_empty in Hd.
  - by eapply regles_clau.
Qed.

(** The two loops never raise, and the table they leave is square and
    holds keys of the grammar only. *)
Lemma taula_final (g : normes) (frase : pyseq) :
  ∃ t0 t,
    for_each (range (len frase)) (Cky.omplir_base g frase)
      (taula_nova (len frase)) = Ok t0 ∧
    Cky.omplir_resta (index_de (regles g) ∅) (len frase) t0 = Ok t ∧
    quadrada (len frase) t ∧
    (∀ i j x, x ∈ cell t i j → x ∈ g.*1).
Proof.
  destruct (base_ok g frase) as (t0 & Hbase & Hq0 & Hcell0).
  destruct (omplir_resta_inv (index_de (regles g) ∅) (len frase)
              (λ x, x ∈ g.*1) (index_claus g) t0) as (t & Hresta & Hq & HP).
  { split; [done|]. intros i j x Hx.
    apply Hcell0 in Hx as (_ & w & _ & p & Hp & _). by eapply regles_clau. }
  by exists t0, t.
Qed.

(** The recogniser on a sentence that is not empty: the result is read
    from the last cell of the first row. *)
Lemma recognize_no_buida (g : normes) (arrel : str) (frase : pyseq) :
  is_falsy frase = false →
  ∃ t0 t,
    for_each (range (len frase)) (Cky.omplir_base g frase)
      (taula_nova (len frase)) = Ok t0 ∧
    Cky.omplir_resta (index_de (regles g) ∅) (len frase) t0 = Ok t ∧
    quadrada (len frase) t ∧
    (∀ i j x, x ∈ cell t i j → x ∈ g.*1) ∧
    Cky.recognize g arrel frase =
      Ok (bool_decide (arrel ∈ cell t 0 (len frase - 1))).
Proof.
  intros Hfrase.
  destruct (taula_final g frase) as (t0 & t & Hbase & Hresta & Hq & HP).
  exists t0, t. do 4 (split; [done|]).
  unfold Cky.recognize, Cky.__init__. rewrite preprocessar_ok. simpl.
  unfold Cky.algoritme_cky. rewrite Hfrase. simpl.
  rewrite Hbase. simpl. rewrite Hresta. simpl.
  rewrite (taula_get_ok (len frase)); [done..| |].
  - unfold is_falsy, len in *. destruct (items frase); [done|simpl; lia].
  - unfold is_falsy, len in *. destruct (items frase); [done|simpl; lia].
Qed.

(** ** The empty sentence *)

Lemma dict_get_None (g : normes) k : dict_get g k = None ↔ k ∉ g.*1.
Proof.
  induction g as [|[k' v] g IH]; simpl.
  - split; [intros _; apply not_elem_of_nil|done].
  - rewrite not_elem_of_cons. case_decide; [naive_solver|].
    rewrite IH. naive_solver.
Qed.

Lemma dict_get_Some (g : normes) k v :
  dict_wf g → dict_get g k = Some v ↔ (k, v) ∈ g.
Proof.
  unfold dict_wf. induction g as [|[k' v'] g IH]; simpl; intros Hwf.
  - split; [done|]. intros H. by apply elem_of_nil in H.
  - apply NoDup_cons in Hwf as [Hk' Hwf]. rewrite elem_of_cons.
    case_decide as Hk.
    + subst k'. split; [intros [= ->]; by left|].
      intros [[= ->]|Hin]; [done|]. destruct Hk'.
      apply list_elem_of_fmap. by exists (k, v).
    + rewrite (IH Hwf). naive_solver.
Qed.

Lemma es_buida_ok (p : pyseq) :
  ∃ b, Cky.es_buida p = Ok b ∧ (b = true ↔ cos_sentinella p).
Proof.
  unfold Cky.es_buida, cos_sentinella, len, getitem.
  destruct (items p) as [|x [|y l]]; simpl.
  - exists false. naive_solver.
  - eexists. split; [done|]. rewrite bool_decide_eq_true.
    rewrite elem_of_cons, list_elem_of_singleton. naive_solver.
  - exists false. naive_solver.
Qed.

Lemma alguna_buida_ok (ps : list pyseq) :
  ∃ b, Cky.alguna_buida ps = Ok b ∧
       (b = true ↔ ∃ p, p ∈ ps ∧ cos_sentinella p).
Proof.
  induction ps as [|p ps (b & IH & Hb)]; simpl.
  - exists false. split; [done|]. split; [done|].
    intros (p & Hp & _). by apply elem_of_nil in Hp.
  - destruct (es_buida_ok p) as ([] & -> & Hp); simpl.
    + exists true. split; [done|]. split; [|done]. intros _.
      exists p. split; [left|by apply Hp].
    + exists b. split; [done|]. rewrite Hb. split.
      * intros (q & ? & ?). exists q. split; [by right|done].
      * intros (q & [->|?]%elem_of_cons & ?); [|eauto].
        assert (false = true) by by apply Hp. done.
Qed.

Lemma cky_derivacio_buida_ok (g : normes) rb (arrel : str) :
  dict_wf g →
  ∃ b, Cky._comprovar_derivacio_buida
         {| Cky.gramatica := g; Cky.regles_binaries := rb;
            Cky.simbol_arrel := arrel |} = Ok b ∧
       (b = true ↔ ∃ p, (arrel, p) ∈ regles g ∧ cos_sentinella p).
Proof.
  intros Hwf. unfold Cky._comprovar_derivacio_buida, dict_in, dict_index.
  simpl. destruct (dict_get g arrel) as [ps|] eqn:Hget; simpl.
  - apply dict_get_Some in Hget; [|done].
    destruct (alguna_buida_ok ps) as (b & -> & Hb). exists b.
    split; [done|]. rewrite Hb. split.
    + intros (p & ? & ?). exists p. split; [|done].
      apply elem_of_regles. eauto.
    + intros (p & (ps' & Hps' & ?)%elem_of_regles & ?).
      assert (ps' = ps) as ->; [|eauto].
      apply dict_get_Some in Hget, Hps'; [|done..]. congruence.
  - exists false. split; [done|]. split; [done|].
    intros (p & Hp%regles_clau & _). by apply dict_get_None in Hget.
Qed.

Lemma main_alguna_buida_ok (ps : list pyseq) :
  Main.alguna_buida ps = true ↔ ∃ p, p ∈ ps ∧ cos_cadena_buida p.
Proof.
  unfold cos_cadena_buida. induction ps as [|p ps IH]; simpl.
  - split; [done|]. intros (p & Hp & _). by apply elem_of_nil in Hp.
  - destruct (eq_str p buit) eqn:Hp.
    + split; [intros _|done]. exists p. split; [left|].
      destruct p as [s|l]; simpl in Hp; [|done].
      by apply bool_decide_eq_true in Hp as ->.
    + rewrite IH. split.
      * intros (q & ? & ?). exists q. split; [by right|done].
      * intros (q & [->|?]%elem_of_cons & ->); [|eauto].
        by simpl in Hp.
Qed.

Lemma main_carregar_ok (g : normes) (arrel : str) :
  Main.carregar_gramatica Main.__init__ g arrel =
  Ok {| Main.gramatica := Some g;
        Main.regles_binaries := Some (index_de (regles g) ∅);
        Main.simbol_arrel := Some arrel |}.
Proof.
  unfold Main.carregar_gramatica, Main._preprocessar_gramatica. simpl.
  change (for_each g _ ∅) with (Cky._preprocessar_regles_binaries g).
  by rewrite preprocessar_ok.
Qed.

Lemma main_derivacio_buida_ok (g : normes) rb (arrel : str) :
  dict_wf g →
  ∃ b, Main._comprovar_derivacio_buida
         {| Main.gramatica := Some g; Main.regles_binaries := rb;
            Main.simbol_arrel := Some arrel |} = Ok b ∧
       (b = true ↔ ∃ p, (arrel, p) ∈ regles g ∧ cos_cadena_buida p).
Proof.
  intros Hwf. unfold Main._comprovar_derivacio_buida, dict_in, dict_index.
  simpl. destruct (dict_get g arrel) as [ps|] eqn:Hget; simpl.
  - apply dict_get_Some in Hget; [|done].
    eexists. split; [done|]. rewrite main_alguna_buida_ok. split.
    + intros (p & ? & ?). exists p. split; [|done].
      apply elem_of_regles. eauto.
    + intros (p & (ps' & Hps' & ?)%elem_of_regles & ?).
      assert (ps' = ps) as ->; [|eauto].
      apply dict_get_Some in Hget, Hps'; [|done..]. congruence.
  - exists false. split; [done|]. split; [done|].
    intros (p & Hp%regles_clau & _). by apply dict_get_None in Hget.
Qed.

(** The two innermost loops do nothing when one of the parts is empty. *)
Lemma combinar_buit (rb : index_binari) (diag col k : nat)
    (part_diag part_col : gset str) (t : taula) :
  part_diag = ∅ ∨ part_col = ∅ →
  Cky.combinar rb diag col k part_diag part_col t = Ok t.
Proof.
  unfold Cky.combinar, Cky.recorrer. intros [-> | ->].
  - by rewrite elements_empty.
  - rewrite elements_empty. simpl. apply for_each_skip.
Qed.

Lemma provar_divisio_poda (rb : index_binari) (diag col k : nat) (t : taula) :
  SensePoda.provar_divisio rb diag col k t = Cky.provar_divisio rb diag col k t.
Proof.
  unfold SensePoda.provar_divisio, Cky.provar_divisio.
  destruct (taula_get t diag (diag + k)) as [part_diag|]; simpl; [|done].
  destruct (taula_get t (diag + k + 1) col) as [part_col|]; simpl; [|done].
  destruct (bool_decide (part_diag = ∅) || bool_decide (part_col = ∅)) eqn:Hb;
    [|done].
  apply combinar_buit.
  apply orb_true_iff in Hb as [?%bool_decide_eq_true|?%bool_decide_eq_true];
    auto.
Qed.

Lemma omplir_resta_poda (rb : index_binari) (n : nat) (t : taula) :
  SensePoda.omplir_resta rb n t = Cky.omplir_resta rb n t.
Proof.
  unfold SensePoda.omplir_resta, Cky.omplir_resta.
  apply for_each_ext. intros n_fila t1 _.
  apply for_each_ext. intros diag t2 _.
  apply for_each_ext. intros k t3 _.
  apply provar_divisio_poda.
Qed.

(** ** Grammars with the same rules *)

Lemma mateix_index (g g' : normes) :
  mateixes_regles g g' → index_de (regles g) ∅ = index_de (regles g') ∅.
Proof.
  intros Hgg. apply index_ext.
  - apply sense_buits_index_de. intros clau. by rewrite lookup_empty.
  - apply sense_buits_index_de. intros clau. by rewrite lookup_empty.
  - intros clau. apply set_eq. intros x. rewrite !derivadors_index_de.
    split; (intros [?|(p & Hp & Hitems)]; [by left|right]; exists p;
      split; [|done]; apply (Hgg x p); [|done]; right; unfold len;
      by rewrite Hitems).
Qed.

Lemma mateixa_regla_terminal (g g' : normes) x w :
  mateixes_regles g g' → regla_terminal g x w ↔ regla_terminal g' x w.
Proof.
  intros Hgg. unfold regla_terminal.
  split; (intros (p & Hp & Hitems); exists p; split; [|done];
    apply (Hgg x p); [|done]; left; unfold len; by rewrite Hitems).
Qed.

Lemma mateixa_base (g g' : normes) frase t t' :
  mateixes_regles g g' →
  for_each (range (len frase)) (Cky.omplir_base g frase)
    (taula_nova (len frase)) = Ok t →
  for_each (range (len frase)) (Cky.omplir_base g' frase)
    (taula_nova (len frase)) = Ok t' →
  t = t'.
Proof.
  intros Hgg Ht Ht'.
  destruct (base_ok g frase) as (t1 & H1 & Hq1 & Hc1).
  destruct (base_ok g' frase) as (t2 & H2 & Hq2 & Hc2).
  assert (t1 = t) as -> by congruence. assert (t2 = t') as -> by congruence.
  apply taula_ext with (len frase); [done..|]. intros i j _ _.
  apply set_eq. intros x. rewrite Hc1, Hc2.
  split; (intros (-> & w & Hw & Hr); split; [done|]; exists w;
    split; [done|]; by apply (mateixa_regla_terminal g g' x w Hgg)).
Qed.

(** On a sentence that is not empty the recogniser only sees the unit and
    binary productions. *)
Lemma recognize_no_buida_mateixes (g g' : normes) (arrel : str)
    (frase : pyseq) :
  mateixes_regles g g' → is_falsy frase = false →
  Cky.recognize g arrel frase = Cky.recognize g' arrel frase.
Proof.
  intros Hgg Hfrase.
  destruct (recognize_no_buida g arrel frase Hfrase)
    as (t0 & t & Hbase & Hresta & _ & _ & ->).
  destruct (recognize_no_buida g' arrel frase Hfrase)
    as (t0' & t' & Hbase' & Hresta' & _ & _ & ->).
  assert (t0 = t0') as <- by by eapply mateixa_base.
  rewrite <-(mateix_index g g' Hgg), Hresta in Hresta'.
  by injection Hresta' as ->.
Qed.

(** On the empty sentence it only sees the unit productions of the start
    symbol. *)
Lemma recognize_buida_mateixes (g g' : normes) (arrel : str)
    (frase : pyseq) :
  dict_wf g → dict_wf g' → mateixes_regles g g' → is_falsy frase = true →
  Cky.recognize g arrel frase = Cky.recognize g' arrel frase.
Proof.
  intros Hwf Hwf' Hgg Hfrase.
  unfold Cky.recognize, Cky.__init__. rewrite !preprocessar_ok. simpl.
  unfold Cky.algoritme_cky. rewrite Hfrase.
  destruct (cky_derivacio_buida_ok g (index_de (regles g) ∅) arrel Hwf)
    as (b & -> & Hb).
  destruct (cky_derivacio_buida_ok g' (index_de (regles g') ∅) arrel Hwf')
    as (b' & -> & Hb').
  f_equal. apply eq_true_iff_eq. rewrite Hb, Hb'.
  split; (intros (p & Hp & Hs); exists p; split; [|done];
    apply (Hgg arrel p); [|done]; left; unfold len;
    by destruct Hs as [Hs|Hs]; rewrite Hs).
Qed.

(** A body added among the bodies of a key: what a lookup finds, and
    what the search for an empty production answers. *)
Lemma dict_get_app (g1 g2 : normes) (a k : str) (ps : list pyseq) :
  dict_get (g1 ++ (a, ps) :: g2) k =
  match dict_get g1 k with
  | Some v => Some v
  | None => if decide (a = k) then Some ps else dict_get g2 k
  end.
Proof.
  induction g1 as [|[k' v] g1 IH]; simpl; [done|].
  by destruct (decide (k' = k)).
Qed.

Lemma alguna_buida_afegir (ps1 ps2 : list pyseq) (p : pyseq) :
  len p ≠ 1 →
  Cky.alguna_buida (ps1 ++ p :: ps2) = Cky.alguna_buida (ps1 ++ ps2).
Proof.
  intros Hp. induction ps1 as [|q ps1 IH]; simpl.
  - unfold Cky.es_buida. by rewrite decide_False.
  - destruct (Cky.es_buida q) as [[]|]; simpl; done.
Qed.

Lemma recognize_buida_afegir (g1 g2 : normes) (a : str)
    (ps1 ps2 : list pyseq) (p : pyseq) (arrel : str) (frase : pyseq) :
  len p ≠ 1 → is_falsy frase = true →
  Cky.recognize (g1 ++ (a, ps1 ++ p :: ps2) :: g2) arrel frase =
  Cky.recognize (g1 ++ (a, ps1 ++ ps2) :: g2) arrel frase.
Proof.
  intros Hp Hfrase.
  unfold Cky.recognize, Cky.__init__. rewrite !preprocessar_ok. simpl.
  unfold Cky.algoritme_cky. rewrite Hfrase.
  unfold Cky._comprovar_derivacio_buida, dict_in, dict_index. simpl.
  rewrite !dict_get_app. destruct (dict_get g1 arrel); [done|].
  case_decide; [|done]. simpl. by apply alguna_buida_afegir.
Qed.

(** ** The order in which a set is iterated *)

(** What the two innermost loops add to the cell [(diag, col)]. *)
Lemma recorrer_ok (rb : index_binari) (n diag col k : nat)
    (l1 l2 : list str) (t : taula) :
  quadrada n t → diag + k < col → col < n →
  ∃ t', Cky.recorrer rb diag col k l1 l2 t = Ok t' ∧ quadrada n t' ∧
    ∀ i j x, x ∈ cell t' i j ↔
      x ∈ cell t i j ∨
      (i = diag ∧ j = col ∧
       ∃ b c, b ∈ l1 ∧ c ∈ l2 ∧ x ∈ derivadors rb (b, c)).
Proof.
  intros Ht Hk Hcol. unfold Cky.recorrer.
  destruct (for_each_inv_prefix
    (λ fets t', quadrada n t' ∧
       ∀ i j x, x ∈ cell t' i j ↔
         x ∈ cell t i j ∨
         (i = diag ∧ j = col ∧
          ∃ b c, b ∈ fets ∧ c ∈ l2 ∧ x ∈ derivadors rb (b, c)))
    l1 (λ b t, for_each l2 (λ c t,
          match rb !! (b, c) with
          | Some s =>
              if bool_decide (diag + k = col ∨ diag + k + 1 = diag)
              then Raise RuntimeError
              else taula_update t diag col s
          | None => Ok t
          end) t) t) as (t' & Hfor & Ht' & Hcell'); [| |by exists t'].
  { split; [done|]. intros i j x. split; [auto|].
    intros [?|(_ & _ & b & _ & Hb & _)]; [done|]. by apply elem_of_nil in Hb. }
  intros fets1 b _ t1 _ [Ht1 Hcell1].
  destruct (for_each_inv_prefix
    (λ fets t', quadrada n t' ∧
       ∀ i j x, x ∈ cell t' i j ↔
         x ∈ cell t1 i j ∨
         (i = diag ∧ j = col ∧ ∃ c, c ∈ fets ∧ x ∈ derivadors rb (b, c)))
    l2 (λ c t,
          match rb !! (b, c) with
          | Some s =>
              if bool_decide (diag + k = col ∨ diag + k + 1 = diag)
              then Raise RuntimeError
              else taula_update t diag col s
          | None => Ok t
          end) t1) as (t2 & Hfor & Ht2 & Hcell2).
  { split; [done|]. intros i j x. split; [auto|].
    intros [?|(_ & _ & c & Hc & _)]; [done|]. by apply elem_of_nil in Hc. }
  { intros fets2 c _ t2 _ [Ht2 Hcell2]. unfold derivadors.
    destruct (rb !! (b, c)) as [s|] eqn:Hs.
    - rewrite bool_decide_false by lia.
      destruct (taula_update_ok n t2 diag col s Ht2) as (t3 & -> & Ht3 & Hcell3);
        [lia..|].
      exists t3. split; [done|]. split; [done|]. intros i j x.
      rewrite Hcell3. case_decide as Hij.
      + destruct Hij as [-> ->]. rewrite elem_of_union, Hcell2. split.
        * intros [[?|(_ & _ & c' & ? & ?)]|?]; [by left|right..].
          -- do 2 (split; [done|]). exists c'. split; [|done]. set_solver.
          -- do 2 (split; [done|]). exists c. rewrite Hs. split; [|done].
             set_solver.
        * intros [?|(_ & _ & c' & [?| ->%list_elem_of_singleton]%elem_of_app & Hx)].
          -- by left; left.
          -- left. right. do 2 (split; [done|]). eauto.
          -- right. by rewrite Hs in Hx.
      + rewrite Hcell2. split; (intros [?|(? & ? & _)]; [by left|]);
          by destruct Hij.
    - exists t2. split; [done|]. split; [done|]. intros i j x.
      rewrite Hcell2. split.
      + intros [?|(? & ? & c' & ? & ?)]; [by left|right].
        do 2 (split; [done|]). exists c'. split; [|done]. set_solver.
      + intros [?|(? & ? & c' & [?| ->%list_elem_of_singleton]%elem_of_app & Hx)].
        * by left.
        * right. do 2 (split; [done|]). eauto.
        * rewrite Hs in Hx. set_solver. }
  exists t2. split; [done|]. split; [done|]. intros i j x.
  rewrite Hcell2, Hcell1. split.
  - intros [[?|(? & ? & b' & c & ? & ? & ?)]|(? & ? & c & ? & ?)];
      [by left|right..].
    + do 2 (split; [done|]). exists b', c. split; [|done]. set_solver.
    + do 2 (split; [done|]). exists b, c. split; [|done]. set_solver.
  - intros [?|(? & ? & b' & c & [?| ->%list_elem_of_singleton]%elem_of_app & ? & ?)].
    + by left; left.
    + left. right. do 2 (split; [done|]). eauto.
    + right. do 2 (split; [done|]). eauto.
Qed.

(** The table the two innermost loops leave does not depend on the order
    in which the two sets are iterated. *)
Lemma recorrer_ordre (rb : index_binari) (n diag col k : nat)
    (l1 l1' l2 l2' : list str) (t : taula) :
  quadrada n t → diag + k < col → col < n →
  (∀ x, x ∈ l1 ↔ x ∈ l1') → (∀ x, x ∈ l2 ↔ x ∈ l2') →
  Cky.recorrer rb diag col k l1 l2 t = Cky.recorrer rb diag col k l1' l2' t.
Proof.
  intros Ht Hk Hcol H1 H2.
  destruct (recorrer_ok rb n diag col k l1 l2 t) as (t1 & -> & Hq1 & Hc1);
    [done..|].
  destruct (recorrer_ok rb n diag col k l1' l2' t) as (t2 & -> & Hq2 & Hc2);
    [done..|].
  f_equal. apply taula_ext with n; [done..|]. intros i j _ _.
  apply set_eq. intros x. rewrite Hc1, Hc2.
  split; (intros [?|(? & ? & b & c & ? & ? & ?)]; [by left|right];
    do 2 (split; [done|]); exists b, c; split; [by apply H1|];
    split; [by apply H2|done]).
Qed.

(** ** Properties of the recogniser *)

(** Closes a goal [dict_wf g] or [k ∉ l] on concrete data. *)
Ltac decideix := apply (bool_decide_unpack _); vm_compute; exact I.

Lemma cky_derivacio_buida_total (self : Cky.Gramatica) :
  ∃ b, Cky._comprovar_derivacio_buida self = Ok b.
Proof.
  unfold Cky._comprovar_derivacio_buida, dict_in, dict_index.
  destruct (dict_get _ _) as [ps|]; simpl; [|by exists false].
  destruct (alguna_buida_ok ps) as (b & Hb & _). by exists b.
Qed.

Lemma recognize_buida (g : normes) (arrel : str) (frase : pyseq) :
  is_falsy frase = true →
  Cky.recognize g arrel frase =
  Cky._comprovar_derivacio_buida
    {| Cky.gramatica := g; Cky.regles_binaries := index_de (regles g) ∅;
       Cky.simbol_arrel := arrel |}.
Proof.
  intros Hfrase. unfold Cky.recognize, Cky.__init__.
  rewrite preprocessar_ok. simpl. unfold Cky.algoritme_cky.
  by rewrite Hfrase.
Qed.

Lemma main_recognize_buida (g : normes) (arrel : str) (frase : pyseq) :
  is_falsy frase = true →
  Main.recognize g arrel frase =
  Main._comprovar_derivacio_buida
    {| Main.gramatica := Some g;
       Main.regles_binaries := Some (index_de (regles g) ∅);
       Main.simbol_arrel := Some arrel |}.
Proof.
  intros Hfrase. unfold Main.recognize. rewrite main_carregar_ok. simpl.
  unfold Main.algoritme_cky. by rewrite Hfrase.
Qed.

(** A sentence of one word is recognised exactly when the start symbol
    has that word as a unit production. *)
Lemma recognize_un_mot (g : normes) (arrel : str) (frase : pyseq) (w : str) :
  items frase = [w] →
  ∃ b, Cky.recognize g arrel frase = Ok b ∧
       (b = true ↔ regla_terminal g arrel w).
Proof.
  intros Hw.
  assert (is_falsy frase = false) as Hfrase by (unfold is_falsy; by rewrite Hw).
  assert (len frase = 1) as Hlen by (unfold len; by rewrite Hw).
  destruct (recognize_no_buida g arrel frase Hfrase)
    as (t0 & t & Hbase & Hresta & _ & _ & ->).
  destruct (base_ok g frase) as (t0' & Hbase' & _ & Hcell).
  rewrite Hbase in Hbase'. injection Hbase' as <-.
  rewrite Hlen in Hresta. injection Hresta as <-.
  eexists. split; [done|]. rewrite bool_decide_eq_true, Hlen, Hcell, Hw.
  simpl. naive_solver.
Qed.

(** C1, as stated, fails: with the grammar [{'S': ['']}], whose only
    production under the start symbol has an empty body, cky.py answers
    false on the empty sentence. *)
Lemma C1_cos_buit_no_reconegut :
  ¬ (Cky.recognize [(lit "S", [PStr buit])] (lit "S") (PList []) = Ok true ↔
     te_cos_buit [(lit "S", [PStr buit])] (lit "S")).
Proof.
  intros [_ H]. assert (te_cos_buit [(lit "S", [PStr buit])] (lit "S")) as Hb.
  { exists (PStr buit). split; [|done]. apply elem_of_regles.
    exists [PStr buit]. split; apply list_elem_of_singleton; done. }
  apply H in Hb. vm_compute in Hb. discriminate Hb.
Qed.

(** C1, amended: on the empty sentence cky.py answers true exactly when
    the start symbol has a production of one symbol that is the letter
    epsilon or the empty string, and main.py exactly when the start
    symbol has the empty string as a production; neither raises. *)
Theorem C1_frase_buida (g : normes) (arrel : str) (frase : pyseq) :
  dict_wf g → is_falsy frase = true →
  (∃ b, Cky.recognize g arrel frase = Ok b ∧
        (b = true ↔ ∃ p, (arrel, p) ∈ regles g ∧ cos_sentinella p)) ∧
  (∃ b, Main.recognize g arrel frase = Ok b ∧
        (b = true ↔ ∃ p, (arrel, p) ∈ regles g ∧ cos_cadena_buida p)).
Proof.
  intros Hwf Hfrase. split.
  - rewrite recognize_buida by done. by apply cky_derivacio_buida_ok.
  - rewrite main_recognize_buida by done. by apply main_derivacio_buida_ok.
Qed.

Lemma C1_frase_buida_witness :
  dict_wf [(lit "S", [PList [epsilon]; PStr (lit "a")])] ∧
  is_falsy (PStr buit) = true ∧
  (∃ b, Cky.recognize [(lit "S", [PList [epsilon]; PStr (lit "a")])]
          (lit "S") (PStr buit) = Ok b ∧
        (b = true ↔ ∃ p, (lit "S", p) ∈
                           regles [(lit "S", [PList [epsilon]; PStr (lit "a")])] ∧
                         cos_sentinella p)) ∧
  (∃ b, Main.recognize [(lit "S", [PList [epsilon]; PStr (lit "a")])]
          (lit "S") (PStr buit) = Ok b ∧
        (b = true ↔ ∃ p, (lit "S", p) ∈
                           regles [(lit "S", [PList [epsilon]; PStr (lit "a")])] ∧
                         cos_cadena_buida p)).
Proof.
  split; [decideix|]. split; [reflexivity|].
  apply (C1_frase_buida [(lit "S", [PList [epsilon]; PStr (lit "a")])]
           (lit "S") (PStr buit)); [decideix|reflexivity].
Defined.

(** C2: on every sentence that is not empty, the recogniser of cky.py
    and the recogniser of main.py, loaded with the same rules and start
    symbol, return the same result. *)
Theorem C2_mateix_resultat (g : normes) (arrel : str) (frase : pyseq) :
  is_falsy frase = false →
  Cky.recognize g arrel frase = Main.recognize g arrel frase.
Proof.
  intros Hfrase. unfold Main.recognize. rewrite main_carregar_ok.
  unfold Cky.recognize, Cky.__init__. rewrite preprocessar_ok.
  cbn [bind]. unfold Cky.algoritme_cky, Main.algoritme_cky.
  rewrite Hfrase. reflexivity.
Qed.

Lemma C2_mateix_resultat_witness :
  is_falsy (PStr (lit "aba")) = false ∧
  Cky.recognize Main.create_grammar_g1 (lit "S") (PStr (lit "aba")) =
  Main.recognize Main.create_grammar_g1 (lit "S") (PStr (lit "aba")).
Proof.
  split; [reflexivity|].
  apply (C2_mateix_resultat Main.create_grammar_g1 (lit "S") (PStr (lit "aba"))).
  reflexivity.
Defined.

(** On the empty sentence the two files differ, each way round. *)
Lemma divergencia_frase_buida :
  Cky.recognize [(lit "S", [PStr epsilon])] (lit "S") (PStr buit) = Ok true ∧
  Main.recognize [(lit "S", [PStr epsilon])] (lit "S") (PStr buit) = Ok false ∧
  Cky.recognize [(lit "S", [PStr buit])] (lit "S") (PStr buit) = Ok false ∧
  Main.recognize [(lit "S", [PStr buit])] (lit "S") (PStr buit) = Ok true.
Proof. by vm_compute. Qed.

(** The recogniser never raises. *)
Lemma recognize_total (g : normes) (arrel : str) (frase : pyseq) :
  ∃ b, Cky.recognize g arrel frase = Ok b.
Proof.
  destruct (is_falsy frase) eqn:Hfrase.
  - rewrite recognize_buida by done. apply cky_derivacio_buida_total.
  - destruct (recognize_no_buida g arrel frase Hfrase)
      as (t0 & t & _ & _ & _ & _ & ->).
    eauto.
Qed.

(** The sentences of the driver that the two grammars settle with one
    word. *)
Lemma exemples_un_mot :
  Cky.recognize Main.create_grammar_g1 (lit "S") (PStr (lit "a")) = Ok true ∧
  Cky.recognize Main.create_grammar_g1 (lit "S") (PStr (lit "b")) = Ok true ∧
  Cky.recognize Main.create_grammar_g2 (lit "S") (PStr (lit "a")) = Ok false ∧
  Cky.recognize Main.create_grammar_g2 (lit "S") (PStr (lit "b")) = Ok false.
Proof. by vm_compute. Qed.

(** C3: the recogniser returns a boolean on every grammar, start symbol
    and sentence; when the sentence is not empty both loops complete and
    the last access, [taula[0][n-1]], is within the table. *)
Theorem C3_total (g : normes) (arrel : str) (frase : pyseq) :
  (∃ b, Cky.recognize g arrel frase = Ok b) ∧
  (is_falsy frase = true ∨
   ∃ rb t0 t c,
     Cky._preprocessar_regles_binaries g = Ok rb ∧
     for_each (range (len frase)) (Cky.omplir_base g frase)
       (taula_nova (len frase)) = Ok t0 ∧
     Cky.omplir_resta rb (len frase) t0 = Ok t ∧
     taula_get t 0 (len frase - 1) = Ok c).
Proof.
  split; [apply recognize_total|].
  destruct (is_falsy frase) eqn:Hfrase; [by left|].
  destruct (recognize_no_buida g arrel frase Hfrase)
    as (t0 & t & Hbase & Hresta & Hq & _ & _).
  right. exists (index_de (regles g) ∅), t0, t. eexists.
  split; [apply preprocessar_ok|].
  do 2 (split; [done|]). apply (taula_get_ok (len frase)); [done| |];
    unfold is_falsy, len in *; destruct (items frase); simpl; done || lia.
Qed.

(** C4: a sentence of one word is recognised exactly when the start
    symbol itself has a unit production for that word; the second loop
    does nothing on a table of one cell. *)
Theorem C4_un_sol_mot (g : normes) (arrel : str) (frase : pyseq) (w : str) :
  items frase = [w] →
  (∃ b, Cky.recognize g arrel frase = Ok b ∧
        (b = true ↔ regla_terminal g arrel w)) ∧
  (∀ rb t, Cky.omplir_resta rb 1 t = Ok t).
Proof.
  intros Hw. split; [by apply recognize_un_mot|done].
Qed.

Lemma C4_un_sol_mot_witness :
  items (PStr (lit "a")) = [lit "a"] ∧
  (∃ b, Cky.recognize Main.create_grammar_g2 (lit "S") (PStr (lit "a")) = Ok b ∧
        (b = true ↔ regla_terminal Main.create_grammar_g2 (lit "S") (lit "a"))) ∧
  (∀ rb t, Cky.omplir_resta rb 1 t = Ok t).
Proof.
  split; [reflexivity|].
  apply (C4_un_sol_mot Main.create_grammar_g2 (lit "S") (PStr (lit "a")) (lit "a")).
  reflexivity.
Defined.

(** C5: the recogniser that does not skip the split points with an empty
    part returns what the recogniser of cky.py returns, on every grammar
    and every sentence. *)
Theorem C5_poda (g : normes) (arrel : str) (frase : pyseq) :
  SensePoda.recognize g arrel frase = Cky.recognize g arrel frase.
Proof.
  unfold SensePoda.recognize, Cky.recognize.
  destruct (Cky.__init__ g arrel) as [self|]; simpl; [|done].
  unfold SensePoda.algoritme_cky, Cky.algoritme_cky.
  destruct (is_falsy frase); [done|].
  destruct (for_each _ _ _) as [t|]; simpl; [|done].
  by rewrite omplir_resta_poda.
Qed.

Lemma regles_afegir (g1 g2 : normes) (a : str) (ps1 ps2 : list pyseq)
    (p : pyseq) (x : str) (q : pyseq) :
  (x, q) ∈ regles (g1 ++ (a, ps1 ++ p :: ps2) :: g2) ↔
  (x, q) ∈ regles (g1 ++ (a, ps1 ++ ps2) :: g2) ∨ (x, q) = (a, p).
Proof.
  rewrite !elem_of_regles. split.
  - intros (ps & Hps & Hq).
    apply elem_of_app in Hps as [Hps|Hps%elem_of_cons].
    { left. exists ps. split; [|done]. apply elem_of_app. by left. }
    destruct Hps as [[= -> ->]|Hps].
    + apply elem_of_app in Hq as [Hq|Hq%elem_of_cons].
      * left. exists (ps1 ++ ps2). split; [|apply elem_of_app; by left].
        apply elem_of_app. right. left.
      * destruct Hq as [->|Hq]; [by right|].
        left. exists (ps1 ++ ps2). split; [|apply elem_of_app; by right].
        apply elem_of_app. right. left.
    + left. exists ps. split; [|done]. apply elem_of_app. right. by right.
  - intros [(ps & Hps & Hq)|[= -> ->]].
    + apply elem_of_app in Hps as [Hps|Hps%elem_of_cons].
      { exists ps. split; [|done]. apply elem_of_app. by left. }
      destruct Hps as [[= -> ->]|Hps].
      * exists (ps1 ++ p :: ps2). split; [apply elem_of_app; right; left|].
        apply elem_of_app in Hq as [Hq|Hq]; apply elem_of_app;
          [by left|right; by right].
      * exists ps. split; [|done]. apply elem_of_app. right. by right.
    + exists (ps1 ++ p :: ps2). split; [apply elem_of_app; right; left|].
      apply elem_of_app. right. left.
Qed.

(** C6: a body of three symbols or more, added anywhere among the bodies
    of a non-terminal, changes neither the index of binary rules nor the
    result of the recogniser, and nothing is raised. *)
Theorem C6_produccio_llarga (g1 g2 : normes) (a : str)
    (ps1 ps2 : list pyseq) (p : pyseq) (arrel : str) (frase : pyseq) :
  3 ≤ len p →
  Cky._preprocessar_regles_binaries (g1 ++ (a, ps1 ++ p :: ps2) :: g2) =
    Cky._preprocessar_regles_binaries (g1 ++ (a, ps1 ++ ps2) :: g2) ∧
  Cky.recognize (g1 ++ (a, ps1 ++ p :: ps2) :: g2) arrel frase =
    Cky.recognize (g1 ++ (a, ps1 ++ ps2) :: g2) arrel frase ∧
  ∃ b, Cky.recognize (g1 ++ (a, ps1 ++ p :: ps2) :: g2) arrel frase = Ok b.
Proof.
  intros Hp.
  assert (mateixes_regles (g1 ++ (a, ps1 ++ p :: ps2) :: g2)
            (g1 ++ (a, ps1 ++ ps2) :: g2)) as Hgg.
  { intros x q Hq. rewrite regles_afegir. split; [|by left].
    intros [?|[= -> ->]]; [done|lia]. }
  split; [|split].
  - rewrite !preprocessar_ok. f_equal. by apply mateix_index.
  - destruct (is_falsy frase) eqn:Hfrase.
    + apply recognize_buida_afegir; [lia|done].
    + by apply recognize_no_buida_mateixes.
  - apply recognize_total.
Qed.

Lemma C6_produccio_llarga_witness :
  3 ≤ len (PStr (lit "ABA")) ∧
  Cky._preprocessar_regles_binaries
    ([(lit "S", [PStr (lit "AB")])] ++
     (lit "A", [PStr (lit "a")] ++ PStr (lit "ABA") :: [PStr (lit "BA")]) ::
     [(lit "B", [PStr (lit "b")])]) =
  Cky._preprocessar_regles_binaries
    ([(lit "S", [PStr (lit "AB")])] ++
     (lit "A", [PStr (lit "a")] ++ [PStr (lit "BA")]) ::
     [(lit "B", [PStr (lit "b")])]) ∧
  Cky.recognize
    ([(lit "S", [PStr (lit "AB")])] ++
     (lit "A", [PStr (lit "a")] ++ PStr (lit "ABA") :: [PStr (lit "BA")]) ::
     [(lit "B", [PStr (lit "b")])]) (lit "S") (PStr (lit "ab")) =
  Cky.recognize
    ([(lit "S", [PStr (lit "AB")])] ++
     (lit "A", [PStr (lit "a")] ++ [PStr (lit "BA")]) ::
     [(lit "B", [PStr (lit "b")])]) (lit "S") (PStr (lit "ab")) ∧
  ∃ b, Cky.recognize
         ([(lit "S", [PStr (lit "AB")])] ++
          (lit "A", [PStr (lit "a")] ++ PStr (lit "ABA") :: [PStr (lit "BA")]) ::
          [(lit "B", [PStr (lit "b")])]) (lit "S") (PStr (lit "ab")) = Ok b.
Proof.
  split; [vm_compute; lia|].
  apply (C6_produccio_llarga [(lit "S", [PStr (lit "AB")])]
           [(lit "B", [PStr (lit "b")])] (lit "A")
           [PStr (lit "a")] [PStr (lit "BA")] (PStr (lit "ABA"))
           (lit "S") (PStr (lit "ab"))).
  vm_compute; lia.
Defined.

(** C7: when the start symbol is no key of the grammar, the recogniser
    returns false on every sentence, empty or not, and raises nothing:
    the search for an empty production answers false, and the start
    symbol is in no cell of the table the two loops fill. *)
Theorem C7_arrel_desconegut (g : normes) (arrel : str) (frase : pyseq) :
  arrel ∉ g.*1 →
  Cky.recognize g arrel frase = Ok false ∧
  (∀ rb, Cky._comprovar_derivacio_buida
           {| Cky.gramatica := g; Cky.regles_binaries := rb;
              Cky.simbol_arrel := arrel |} = Ok false) ∧
  ∃ rb t0 t,
    Cky._preprocessar_regles_binaries g = Ok rb ∧
    for_each (range (len frase)) (Cky.omplir_base g frase)
      (taula_nova (len frase)) = Ok t0 ∧
    Cky.omplir_resta rb (len frase) t0 = Ok t ∧
    ∀ i j, arrel ∉ cell t i j.
Proof.
  intros Harrel.
  assert (∀ rb, Cky._comprovar_derivacio_buida
            {| Cky.gramatica := g; Cky.regles_binaries := rb;
               Cky.simbol_arrel := arrel |} = Ok false) as Hbuida.
  { intros rb. unfold Cky._comprovar_derivacio_buida, dict_in. simpl.
    apply dict_get_None in Harrel. by rewrite Harrel. }
  split; [|split; [done|]].
  - destruct (is_falsy frase) eqn:Hfrase.
    + rewrite recognize_buida by done. apply Hbuida.
    + destruct (recognize_no_buida g arrel frase Hfrase)
        as (t0 & t & _ & _ & _ & Hclaus & ->).
      f_equal. apply bool_decide_eq_false. intros Hin. by apply Hclaus in Hin.
  - destruct (taula_final g frase) as (t0 & t & Hbase & Hresta & _ & Hclaus).
    exists (index_de (regles g) ∅), t0, t.
    split; [apply preprocessar_ok|]. do 2 (split; [done|]).
    intros i j Hin. by apply Hclaus in Hin.
Qed.

Lemma C7_arrel_desconegut_witness :
  (lit "Z" ∉ Main.create_grammar_g1.*1) ∧
  Cky.recognize Main.create_grammar_g1 (lit "Z") (PStr (lit "a")) = Ok false.
Proof.
  split; [decideix|].
  apply (C7_arrel_desconegut Main.create_grammar_g1 (lit "Z") (PStr (lit "a"))).
  decideix.
Defined.

(** C8: two grammars with the same pairs of a non-terminal and a body,
    whatever the order of their keys and of the bodies under a key, get
    the same result on every sentence. *)
Theorem C8_ordre (g g' : normes) (arrel : str) (frase : pyseq) :
  dict_wf g → dict_wf g' →
  (∀ a p, (a, p) ∈ regles g ↔ (a, p) ∈ regles g') →
  Cky.recognize g arrel frase = Cky.recognize g' arrel frase.
Proof.
  intros Hwf Hwf' Hgg.
  assert (mateixes_regles g g') as Hmr by (intros a p _; apply Hgg).
  destruct (is_falsy frase) eqn:Hfrase.
  - by apply recognize_buida_mateixes.
  - by apply recognize_no_buida_mateixes.
Qed.

Lemma g1_reordenada_regles a p :
  (a, p) ∈ regles Main.create_grammar_g1 ↔ (a, p) ∈ regles g1_reordenada.
Proof.
  assert (∀ l l' : list (str * pyseq),
            bool_decide (l ⊆ l') → (a, p) ∈ l → (a, p) ∈ l') as Hsub.
  { intros l l' Hl%bool_decide_unpack. apply Hl. }
  split; apply Hsub; vm_compute; exact I.
Qed.

Lemma C8_ordre_witness :
  dict_wf Main.create_grammar_g1 ∧ dict_wf g1_reordenada ∧
  (∀ a p, (a, p) ∈ regles Main.create_grammar_g1 ↔ (a, p) ∈ regles g1_reordenada) ∧
  Cky.recognize Main.create_grammar_g1 (lit "S") (PStr (lit "aba")) =
  Cky.recognize g1_reordenada (lit "S") (PStr (lit "aba")).
Proof.
  split; [decideix|]. split; [decideix|]. split; [apply g1_reordenada_regles|].
  apply (C8_ordre Main.create_grammar_g1 g1_reordenada (lit "S") (PStr (lit "aba")));
    [decideix|decideix|apply g1_reordenada_regles].
Defined.

(** C9: with the grammar G1 and start symbol S, the sentence "ab" is not
    recognised. *)
Theorem C9_g1_ab :
  Cky.recognize Main.create_grammar_g1 (lit "S") (PStr (lit "ab")) = Ok false.
Proof. by vm_compute. Qed.

(** C10: in cky.py a body of one symbol, the letter epsilon or the empty
    string, under the start symbol makes the recogniser answer true on
    the empty sentence and also on the sentence whose only word is that
    symbol. *)
Theorem C10_sentinella_terminal (g : normes) (arrel : str) (p : pyseq)
    (s : str) :
  dict_wf g → (arrel, p) ∈ regles g → items p = [s] →
  s = epsilon ∨ s = buit →
  Cky.recognize g arrel (PList []) = Ok true ∧
  Cky.recognize g arrel (PList [s]) = Ok true.
Proof.
  intros Hwf Hp Hitems Hs. split.
  - rewrite recognize_buida by done.
    destruct (cky_derivacio_buida_ok g (index_de (regles g) ∅) arrel Hwf)
      as (b & -> & Hb).
    f_equal. apply Hb. exists p. split; [done|].
    unfold cos_sentinella. rewrite Hitems. by destruct Hs as [-> | ->]; [left|right].
  - destruct (recognize_un_mot g arrel (PList [s]) s) as (b & -> & Hb); [done|].
    f_equal. apply Hb. by exists p.
Qed.

Lemma C10_sentinella_terminal_witness :
  dict_wf [(lit "S", [PList [epsilon]])] ∧
  (lit "S", PList [epsilon]) ∈ regles [(lit "S", [PList [epsilon]])] ∧
  items (PList [epsilon]) = [epsilon] ∧
  (epsilon = epsilon ∨ epsilon = buit) ∧
  Cky.recognize [(lit "S", [PList [epsilon]])] (lit "S") (PList []) = Ok true ∧
  Cky.recognize [(lit "S", [PList [epsilon]])] (lit "S") (PList [epsilon]) =
    Ok true.
Proof.
  split; [decideix|]. split; [decideix|]. split; [reflexivity|].
  split; [by left|].
  apply (C10_sentinella_terminal [(lit "S", [PList [epsilon]])] (lit "S")
           (PList [epsilon]) epsilon);
    [decideix|decideix|reflexivity|by left].
Defined.

(** ** What the table holds *)

Lemma seq_prefix (a m : nat) (l1 l2 : list nat) (x : nat) :
  seq a m = l1 ++ x :: l2 → x = a + length l1 ∧ length l1 < m.
Proof.
  intros Hseq.
  assert (seq a m !! length l1 = Some x) as Hx.
  { rewrite Hseq. by apply list_lookup_middle. }
  by apply lookup_seq in Hx.
Qed.

Lemma range_prefix (m : nat) (l1 l2 : list nat) (x : nat) :
  range m = l1 ++ x :: l2 → x = length l1 ∧ x < m ∧ l1 = range x.
Proof.
  unfold range, range2. rewrite !Nat.sub_0_r. intros Hseq.
  destruct (seq_prefix _ _ _ _ _ Hseq) as [-> Hlt]. simpl.
  do 2 (split; [done|]).
  assert (take (length l1) (seq 0 m) = l1) as Htake.
  { rewrite Hseq. apply take_app_length. }
  rewrite take_seq, Nat.min_l in Htake by lia. done.
Qed.

(** One split point: the cell [(diag, col)] receives what the index
    holds for the pairs of the two parts; no other cell changes. *)
Lemma provar_divisio_ok (rb : index_binari) (n diag col k : nat) (t : taula) :
  quadrada n t → diag + k < col → col < n →
  ∃ t', Cky.provar_divisio rb diag col k t = Ok t' ∧ quadrada n t' ∧
    ∀ i j x, x ∈ cell t' i j ↔
      x ∈ cell t i j ∨
      (i = diag ∧ j = col ∧
       ∃ b c, b ∈ cell t diag (diag + k) ∧ c ∈ cell t (diag + k + 1) col ∧
              x ∈ derivadors rb (b, c)).
Proof.
  intros Ht Hk Hcol. unfold Cky.provar_divisio.
  rewrite (taula_get_ok n), (taula_get_ok n) by (done || lia). simpl.
  destruct (bool_decide (cell t diag (diag + k) = ∅) ||
            bool_decide (cell t (diag + k + 1) col = ∅)) eqn:Hb.
  - exists t. split; [done|]. split; [done|]. intros i j x.
    split; [auto|]. intros [?|(_ & _ & b & c & Hb1 & Hc1 & _)]; [done|].
    apply orb_true_iff in Hb as [Hb|Hb]; apply bool_decide_eq_true in Hb;
      rewrite Hb in *; set_solver.
  - unfold Cky.combinar.
    destruct (recorrer_ok rb n diag col k (elements (cell t diag (diag + k)))
                (elements (cell t (diag + k + 1) col)) t)
      as (t' & Hrec & Ht' & Hcell); [done..|].
    exists t'. split; [done|]. split; [done|]. intros i j x.
    rewrite Hcell. by setoid_rewrite elem_of_elements.
Qed.

(** All the split points of one cell. *)
Lemma divisions_ok (rb : index_binari) (n diag n_fila : nat) (t : taula) :
  quadrada n t → 0 < n_fila → diag + n_fila < n →
  ∃ t', for_each (range n_fila)
          (Cky.provar_divisio rb diag (diag + n_fila)) t = Ok t' ∧
    quadrada n t' ∧
    ∀ i j x, x ∈ cell t' i j ↔
      x ∈ cell t i j ∨
      (i = diag ∧ j = diag + n_fila ∧
       ∃ k b c, k < n_fila ∧ b ∈ cell t diag (diag + k) ∧
                c ∈ cell t (diag + k + 1) (diag + n_fila) ∧
                x ∈ derivadors rb (b, c)).
Proof.
  intros Ht Hfila Hn.
  destruct (for_each_inv_prefix
    (λ fets t', quadrada n t' ∧
       ∀ i j x, x ∈ cell t' i j ↔
         x ∈ cell t i j ∨
         (i = diag ∧ j = diag + n_fila ∧
          ∃ k b c, k ∈ fets ∧ b ∈ cell t diag (diag + k) ∧
                   c ∈ cell t (diag + k + 1) (diag + n_fila) ∧
                   x ∈ derivadors rb (b, c)))
    (range n_fila) (Cky.provar_divisio rb diag (diag + n_fila)) t)
    as (t' & Hfor & Ht' & Hcell').
  - split; [done|]. intros i j x. split; [auto|].
    intros [?|(_ & _ & k & _ & _ & Hk & _)]; [done|]. by apply elem_of_nil in Hk.
  - intros fets k l2 t1 Hrange [Ht1 Hcell1].
    apply range_prefix in Hrange as (_ & Hk & _).
    destruct (provar_divisio_ok rb n diag (diag + n_fila) k t1)
      as (t2 & Hstep & Ht2 & Hcell2); [done|lia..|].
    exists t2. split; [done|]. split; [done|]. intros i j x.
    rewrite Hcell2, Hcell1.
    assert (∀ y, y ∈ cell t1 diag (diag + k) ↔ y ∈ cell t diag (diag + k))
      as Hesq.
    { intros y. rewrite Hcell1. split; [|auto].
      intros [?|(_ & ? & _)]; [done|lia]. }
    assert (∀ y, y ∈ cell t1 (diag + k + 1) (diag + n_fila) ↔
                 y ∈ cell t (diag + k + 1) (diag + n_fila)) as Hdre.
    { intros y. rewrite Hcell1. split; [|auto].
      intros [?|(? & _)]; [done|lia]. }
    split.
    + intros [[?|(? & ? & k' & b & c & ? & ?)]|(? & ? & b & c & Hb & Hc & ?)].
      * by left.
      * right. do 2 (split; [done|]). exists k', b, c.
        split; [|done]. apply elem_of_app. by left.
      * right. do 2 (split; [done|]). exists k, b, c.
        split; [apply elem_of_app; right; by apply list_elem_of_singleton|].
        split; [by apply Hesq|]. split; [by apply Hdre|done].
    + intros [?|(? & ? & k' & b & c & Hk' & Hb & Hc & ?)]; [by left; left|].
      apply elem_of_app in Hk' as [Hk'|Hk'%list_elem_of_singleton].
      * left. right. do 2 (split; [done|]). by exists k', b, c.
      * subst k'. right. do 2 (split; [done|]). exists b, c.
        split; [by apply Hesq|]. split; [by apply Hdre|done].
  - exists t'. split; [done|]. split; [done|]. intros i j x.
    rewrite Hcell'. by setoid_rewrite elem_of_range.
Qed.

Section taula_completa.
Variable g : normes.
Variable ws : list str.

Lemma deriva_tram_limits (a : str) (i j : nat) :
  deriva_tram g ws a i j → i ≤ j ∧ j < length ws.
Proof.
  induction 1 as [a w i Hw _|a b c i k j _ _ IH1 _ IH2].
  - apply lookup_lt_Some in Hw. lia.
  - lia.
Qed.

Lemma deriva_tram_diagonal (a : str) (i j : nat) :
  j < i + 1 →
  deriva_tram g ws a i j ↔
  i = j ∧ ∃ w, ws !! i = Some w ∧ regla_terminal g a w.
Proof.
  intros Hj. split.
  - intros Hd. destruct Hd as [a w i Hw Hr|a b c i k j _ H1 H2].
    + eauto.
    + apply deriva_tram_limits in H1, H2. lia.
  - intros (-> & w & Hw & Hr). by eapply tram_terminal.
Qed.

Lemma deriva_tram_divisio (a : str) (i j : nat) :
  i < j →
  deriva_tram g ws a i j ↔
  ∃ k b c, i ≤ k < j ∧ regla_binaria g a b c ∧
           deriva_tram g ws b i k ∧ deriva_tram g ws c (S k) j.
Proof.
  intros Hij. split.
  - intros Hd. destruct Hd as [a w i Hw Hr|a b c i k j Hr H1 H2]; [lia|].
    exists k, b, c. split; [|done].
    apply deriva_tram_limits in H1, H2. lia.
  - intros (k & b & c & _ & Hr & H1 & H2). by eapply tram_binaria.
Qed.

(** One pass over the cells of one diagonal completes them. *)
Lemma diagonal_ok (n_fila : nat) (t : taula) :
  0 < n_fila → n_fila < length ws →
  quadrada (length ws) t →
  (∀ i j x, x ∈ cell t i j ↔ j < i + n_fila ∧ deriva_tram g ws x i j) →
  ∃ t', for_each (range (length ws - n_fila)) (λ diag t,
          let col := diag + n_fila in
          for_each (range n_fila)
            (Cky.provar_divisio (index_de (regles g) ∅) diag col) t) t
        = Ok t' ∧
    quadrada (length ws) t' ∧
    ∀ i j x, x ∈ cell t' i j ↔ j < i + S n_fila ∧ deriva_tram g ws x i j.
Proof.
  intros Hpos Hfila Ht Hcell.
  destruct (for_each_inv_prefix
    (λ fets t', quadrada (length ws) t' ∧
       ∀ i j x, x ∈ cell t' i j ↔
         (j < i + n_fila ∨ (j = i + n_fila ∧ i ∈ fets)) ∧
         deriva_tram g ws x i j)
    (range (length ws - n_fila)) (λ diag t,
       let col := diag + n_fila in
       for_each (range n_fila)
         (Cky.provar_divisio (index_de (regles g) ∅) diag col) t) t)
    as (t' & Hfor & Ht' & Hcell').
  - split; [done|]. intros i j x. rewrite Hcell. split; [naive_solver|].
    intros [[?|[_ Hi]] ?]; [done|]. by apply elem_of_nil in Hi.
  - intros fets diag l2 t1 Hrange [Ht1 Hcell1].
    apply range_prefix in Hrange as (_ & Hdiag & _). simpl.
    destruct (divisions_ok (index_de (regles g) ∅) (length ws) diag n_fila t1)
      as (t2 & Hstep & Ht2 & Hcell2); [done|done|lia|].
    exists t2. split; [done|]. split; [done|]. intros i j x.
    rewrite Hcell2, Hcell1. split.
    + intros [[Hij Hd]|(-> & -> & k & b & c & Hk & Hb & Hc & Hx)].
      * split; [|done]. destruct Hij as [?|[? ?]]; [by left|right].
        split; [done|]. apply elem_of_app. by left.
      * split.
        { right. split; [done|]. apply elem_of_app. right.
          by apply list_elem_of_singleton. }
        apply Hcell1 in Hb as [_ Hb]. apply Hcell1 in Hc as [_ Hc].
        apply index_ok in Hx. eapply tram_binaria; [done..|].
        by replace (S (diag + k)) with (diag + k + 1) by lia.
    + intros [[Hij|[-> Hi]] Hd]; [left; split; [by left|done]|].
      apply elem_of_app in Hi as [Hi|Hi%list_elem_of_singleton].
      { left. split; [right; done|done]. }
      subst i. right. do 2 (split; [done|]).
      apply deriva_tram_divisio in Hd as (kk & b & c & Hkk & Hr & H1 & H2);
        [|lia].
      exists (kk - diag), b, c. split; [lia|].
      replace (diag + (kk - diag)) with kk by lia.
      split; [|split].
      * apply Hcell1. split; [left; lia|done].
      * apply Hcell1. split; [left; lia|].
        by replace (kk + 1) with (S kk) by lia.
      * by apply index_ok.
  - exists t'. split; [done|]. split; [done|]. intros i j x.
    rewrite Hcell'. split.
    + intros [[?|[-> _]] ?]; (split; [lia|done]).
    + intros [Hij Hd]. split; [|done].
      destruct (decide (j < i + n_fila)); [by left|right].
      split; [lia|]. apply elem_of_range.
      apply deriva_tram_limits in Hd. lia.
Qed.

(** The second loop completes the table the first loop leaves. *)
Lemma resta_ok (t0 : taula) :
  quadrada (length ws) t0 →
  (∀ i j x, x ∈ cell t0 i j ↔ j < i + 1 ∧ deriva_tram g ws x i j) →
  ∃ t, Cky.omplir_resta (index_de (regles g) ∅) (length ws) t0 = Ok t ∧
    quadrada (length ws) t ∧
    ∀ i j x, x ∈ cell t i j ↔ deriva_tram g ws x i j.
Proof.
  intros Ht0 Hcell0. unfold Cky.omplir_resta.
  destruct (for_each_inv_prefix
    (λ fets t', quadrada (length ws) t' ∧
       ∀ i j x, x ∈ cell t' i j ↔
         j < i + S (length fets) ∧ deriva_tram g ws x i j)
    (range2 1 (length ws)) (λ n_fila t,
       for_each (range (length ws - n_fila)) (λ diag t,
         let col := diag + n_fila in
         for_each (range n_fila)
           (Cky.provar_divisio (index_de (regles g) ∅) diag col) t) t) t0)
    as (t & Hfor & Ht & Hcell).
  - split; [done|]. intros i j x. rewrite Hcell0. simpl.
    by replace (i + 1) with (S i)%nat by lia.
  - intros fets n_fila l2 t1 Hrange [Ht1 Hcell1].
    apply seq_prefix in Hrange as [-> Hlt].
    destruct (diagonal_ok (1 + length fets) t1) as (t2 & Hstep & Ht2 & Hcell2);
      [lia|lia|done| |].
    { intros i j x. rewrite Hcell1.
      by replace (i + (1 + length fets)) with (i + S (length fets)) by lia. }
    exists t2. split; [done|]. split; [done|]. intros i j x.
    rewrite Hcell2, length_app. simpl.
    by replace (i + S (length fets + 1)) with (i + S (S (length fets))) by lia.
  - exists t. split; [done|]. split; [done|]. intros i j x.
    rewrite Hcell. split; [by intros [_ ?]|]. intros Hd. split; [|done].
    apply deriva_tram_limits in Hd. unfold range2. rewrite length_seq. lia.
Qed.
End taula_completa.

(** ** Derivations of a stretch of the sentence *)

Lemma deriva_no_buida (g : normes) (a : str) (l : list str) :
  deriva g a l → 0 < length l.
Proof.
  induction 1 as [|a b c u v _ _ IH1 _ IH2]; simpl; [lia|].
  rewrite length_app. lia.
Qed.

Lemma length_tram (ws : list str) (i j : nat) :
  i ≤ j → j < length ws → length (tram ws i j) = S j - i.
Proof.
  intros Hij Hj. unfold tram. rewrite length_take, length_drop. lia.
Qed.

Lemma tram_un (ws : list str) (i : nat) (w : str) :
  ws !! i = Some w → tram ws i i = [w].
Proof.
  intros Hw. unfold tram. rewrite (drop_S _ _ _ Hw).
  replace (S i - i) with 1 by lia. done.
Qed.

Lemma tram_app (ws : list str) (i k j : nat) :
  i ≤ k → k < j → tram ws i j = tram ws i k ++ tram ws (S k) j.
Proof.
  intros Hik Hkj. unfold tram.
  replace (S j - i) with ((S k - i) + (S j - S k)) by lia.
  rewrite <-take_take_drop, drop_drop. do 3 f_equal. lia.
Qed.

Lemma deriva_tram_deriva (g : normes) (ws : list str) (a : str) (i j : nat) :
  deriva_tram g ws a i j → deriva g a (tram ws i j).
Proof.
  induction 1 as [a w i Hw Hr|a b c i k j Hr H1 IH1 H2 IH2].
  - rewrite (tram_un _ _ _ Hw). by apply deriva_terminal.
  - apply deriva_tram_limits in H1, H2.
    rewrite (tram_app ws i k j) by lia. by eapply deriva_binaria.
Qed.

Lemma deriva_deriva_tram (g : normes) (ws : list str) (a : str)
    (l : list str) :
  deriva g a l →
  ∀ i j, i ≤ j → j < length ws → tram ws i j = l → deriva_tram g ws a i j.
Proof.
  induction 1 as [a w Hr|a b c u v Hr H1 IH1 H2 IH2]; intros i j Hij Hj Hl.
  - assert (j = i) as ->.
    { apply (f_equal length) in Hl. rewrite length_tram in Hl by done.
      simpl in Hl. lia. }
    eapply tram_terminal; [|done].
    unfold tram in Hl. replace (S i - i) with 1 in Hl by lia.
    destruct (drop i ws) as [|w' l'] eqn:Hdrop; [done|].
    injection Hl as ->.
    rewrite <-(Nat.add_0_r i), <-lookup_drop, Hdrop. done.
  - apply deriva_no_buida in H1 as Hu. apply deriva_no_buida in H2 as Hv.
    assert (length u + length v = S j - i) as Hlen.
    { apply (f_equal length) in Hl.
      by rewrite length_tram, length_app in Hl by done. }
    assert (tram ws i (i + length u - 1) = u) as Hesq.
    { unfold tram in *.
      replace (S (i + length u - 1) - i) with (length u) by lia.
      transitivity (take (length u) (u ++ v)); [|apply take_app_length].
      rewrite <-Hl, take_take. f_equal. lia. }
    assert (tram ws (S (i + length u - 1)) j = v) as Hdre.
    { unfold tram in *.
      replace (S (i + length u - 1)) with (i + length u) by lia.
      rewrite <-drop_drop, take_drop_commute.
      replace (length u + (S j - (i + length u))) with (S j - i) by lia.
      rewrite Hl. apply drop_app_length. }
    eapply (tram_binaria g ws a b c i (i + length u - 1) j); [done| |].
    + apply IH1; [lia|lia|done].
    + apply IH2; [lia|lia|done].
Qed.

Lemma deriva_tram_iff (g : normes) (ws : list str) (a : str) (i j : nat) :
  deriva_tram g ws a i j ↔
  i ≤ j ∧ j < length ws ∧ deriva g a (tram ws i j).
Proof.
  split.
  - intros Hd. destruct (deriva_tram_limits g ws a i j Hd).
    do 2 (split; [done|]). by apply deriva_tram_deriva.
  - intros (Hij & Hj & Hd). by eapply deriva_deriva_tram.
Qed.

Lemma tram_tot (ws : list str) :
  0 < length ws → tram ws 0 (length ws - 1) = ws.
Proof.
  intros Hws. unfold tram. rewrite drop_0. apply take_ge. lia.
Qed.

(** The table after the two loops: a cell holds the non-terminals that
    derive its stretch of the sentence. *)
Lemma taula_completa_ok (g : normes) (frase : pyseq) :
  ∃ t0 t,
    for_each (range (len frase)) (Cky.omplir_base g frase)
      (taula_nova (len frase)) = Ok t0 ∧
    Cky.omplir_resta (index_de (regles g) ∅) (len frase) t0 = Ok t ∧
    quadrada (len frase) t ∧
    ∀ i j x, x ∈ cell t i j ↔ deriva_tram g (items frase) x i j.
Proof.
  destruct (base_ok g frase) as (t0 & Hbase & Hq0 & Hcell0).
  destruct (resta_ok g (items frase) t0) as (t & Hresta & Hq & Hcell);
    [done| |by exists t0, t].
  intros i j x. rewrite Hcell0. split.
  - intros (-> & Hw). split; [lia|]. apply deriva_tram_diagonal; [lia|done].
  - intros [Hij Hd]. by apply deriva_tram_diagonal in Hd.
Qed.

(** On a sentence that is not empty the recogniser answers whether the
    start symbol derives the sentence. *)
Lemma recognize_deriva (g : normes) (arrel : str) (frase : pyseq) :
  is_falsy frase = false →
  ∃ b, Cky.recognize g arrel frase = Ok b ∧
       (b = true ↔ deriva g arrel (items frase)).
Proof.
  intros Hfrase.
  assert (0 < len frase) as Hlen.
  { unfold is_falsy, len in *. destruct (items frase); [done|simpl; lia]. }
  destruct (recognize_no_buida g arrel frase Hfrase)
    as (t0 & t & Hbase & Hresta & _ & _ & ->).
  destruct (taula_completa_ok g frase) as (t0' & t' & Hbase' & Hresta' & _ & Hcell).
  rewrite Hbase in Hbase'. injection Hbase' as <-.
  rewrite Hresta in Hresta'. injection Hresta' as <-.
  eexists. split; [done|].
  rewrite bool_decide_eq_true, Hcell, deriva_tram_iff.
  unfold len in *. rewrite tram_tot by done. split; [by intros (_ & _ & ?)|].
  intros Hd. split; [lia|]. split; [lia|done].
Qed.

(** ** Further properties of the two files *)

Lemma main_igual_cky (g : normes) (arrel : str) (frase : pyseq) :
  is_falsy frase = false →
  Main.recognize g arrel frase = Cky.recognize g arrel frase.
Proof.
  intros Hfrase. unfold Main.recognize. rewrite main_carregar_ok.
  unfold Cky.recognize, Cky.__init__. rewrite preprocessar_ok.
  cbn [bind]. unfold Cky.algoritme_cky, Main.algoritme_cky.
  rewrite Hfrase. reflexivity.
Qed.

Lemma deriva_mes_regles (g g' : normes) (a : str) (l : list str) :
  regles g ⊆ regles g' → deriva g a l → deriva g' a l.
Proof.
  intros Hsub. induction 1 as [a w (p & Hp & Hitems)|a b c u v (p & Hp & Hitems)].
  - apply deriva_terminal. exists p. split; [by apply Hsub|done].
  - eapply deriva_binaria; [|done..]. exists p. split; [by apply Hsub|done].
Qed.

Lemma deriva_mots (g : normes) (a : str) (l : list str) (w : str) :
  deriva g a l → w ∈ l → ∃ a', regla_terminal g a' w.
Proof.
  induction 1 as [a w' Hr|a b c u v _ _ IH1 _ IH2].
  - intros ->%list_elem_of_singleton. eauto.
  - intros [?|?]%elem_of_app; auto.
Qed.

Lemma deriva_sense_binaries (g : normes) (a : str) (l : list str) :
  (∀ x p, (x, p) ∈ regles g → len p ≠ 2) → deriva g a l → length l = 1.
Proof.
  intros Hg. destruct 1 as [|a b c u v (p & Hp & Hitems)]; [done|].
  apply Hg in Hp. unfold len in Hp. by rewrite Hitems in Hp.
Qed.

(** X1: building the index never raises; the index has no entry for a
    pair that is the body of no rule, and for any other pair it holds
    exactly the non-terminals with that body. *)
Theorem X1_index_binari (g : normes) :
  ∃ rb, Cky._preprocessar_regles_binaries g = Ok rb ∧
    ∀ b c,
      (rb !! (b, c) = None ↔ ∀ a, ¬ regla_binaria g a b c) ∧
      (∀ a, a ∈ default ∅ (rb !! (b, c)) ↔ regla_binaria g a b c).
Proof.
  exists (index_de (regles g) ∅). split; [apply preprocessar_ok|].
  intros b c.
  assert (∀ a, a ∈ default ∅ (index_de (regles g) ∅ !! (b, c)) ↔
               regla_binaria g a b c) as Hder by (intros a; apply index_ok).
  split; [|done]. split.
  - intros Hnone a Ha. apply Hder in Ha. rewrite Hnone in Ha. set_solver.
  - intros Hcap.
    destruct (index_de (regles g) ∅ !! (b, c)) as [s|] eqn:Hs; [|done].
    assert (sense_buits (index_de (regles g) ∅)) as Hsb.
    { apply sense_buits_index_de. intros clau. by rewrite lookup_empty. }
    destruct (set_choose_or_empty s) as [[a Ha]|Hbuit].
    + destruct (Hcap a). by apply Hder.
    + apply leibniz_equiv in Hbuit. subst s. by destruct (Hsb (b, c)).
Qed.

(** X2: the first loop never raises; it leaves in the cell [(i, i)]
    exactly the non-terminals with a body of one symbol equal to the word
    at position [i], and leaves every other cell empty. *)
Theorem X2_primera_fila (g : normes) (frase : pyseq) :
  ∃ t, for_each (range (len frase)) (Cky.omplir_base g frase)
         (taula_nova (len frase)) = Ok t ∧
    ∀ i j x, x ∈ cell t i j ↔
      i = j ∧ ∃ w, items frase !! i = Some w ∧ regla_terminal g x w.
Proof.
  destruct (base_ok g frase) as (t & Ht & _ & Hcell). eauto.
Qed.

(** X3: after the two loops a cell [(i, j)] with [i ≤ j] holds exactly
    the non-terminals that derive the words from [i] to [j], and the cells
    below the diagonal are empty. *)
Theorem X3_taula_completa (g : normes) (frase : pyseq) :
  ∃ rb t0 t,
    Cky._preprocessar_regles_binaries g = Ok rb ∧
    for_each (range (len frase)) (Cky.omplir_base g frase)
      (taula_nova (len frase)) = Ok t0 ∧
    Cky.omplir_resta rb (len frase) t0 = Ok t ∧
    ∀ i j x, x ∈ cell t i j ↔
      i ≤ j ∧ j < len frase ∧ deriva g x (tram (items frase) i j).
Proof.
  destruct (taula_completa_ok g frase) as (t0 & t & Hbase & Hresta & _ & Hcell).
  exists (index_de (regles g) ∅), t0, t.
  split; [apply preprocessar_ok|]. do 2 (split; [done|]).
  intros i j x. rewrite Hcell. apply deriva_tram_iff.
Qed.

(** X4: on a sentence that is not empty both files answer true exactly
    when the start symbol derives the sentence. *)
Theorem X4_recognize_deriva (g : normes) (arrel : str) (frase : pyseq) :
  is_falsy frase = false →
  ∃ b, Cky.recognize g arrel frase = Ok b ∧
       Main.recognize g arrel frase = Ok b ∧
       (b = true ↔ deriva g arrel (items frase)).
Proof.
  intros Hfrase. destruct (recognize_deriva g arrel frase Hfrase) as (b & Hb & Hd).
  exists b. split; [done|]. split; [|done]. by rewrite main_igual_cky.
Qed.

Lemma X4_recognize_deriva_witness :
  is_falsy (PStr (lit "ab")) = false ∧
  ∃ b, Cky.recognize Main.create_grammar_g2 (lit "S") (PStr (lit "ab")) = Ok b ∧
       Main.recognize Main.create_grammar_g2 (lit "S") (PStr (lit "ab")) = Ok b ∧
       (b = true ↔
        deriva Main.create_grammar_g2 (lit "S") (items (PStr (lit "ab")))).
Proof.
  split; [reflexivity|].
  apply (X4_recognize_deriva Main.create_grammar_g2 (lit "S") (PStr (lit "ab"))).
  reflexivity.
Defined.

(** X5: a grammar with more rules recognises at least the same
    sentences. *)
Theorem X5_mes_regles (g g' : normes) (arrel : str) (frase : pyseq) :
  dict_wf g → dict_wf g' → regles g ⊆ regles g' →
  Cky.recognize g arrel frase = Ok true →
  Cky.recognize g' arrel frase = Ok true.
Proof.
  intros Hwf Hwf' Hsub Hrec. destruct (is_falsy frase) eqn:Hfrase.
  - rewrite recognize_buida in * by done.
    destruct (cky_derivacio_buida_ok g (index_de (regles g) ∅) arrel Hwf)
      as (b & Hb & Hiff).
    destruct (cky_derivacio_buida_ok g' (index_de (regles g') ∅) arrel Hwf')
      as (b' & -> & Hiff').
    rewrite Hb in Hrec. injection Hrec as ->. f_equal. apply Hiff'.
    destruct Hiff as [(p & Hp & Hs) _]; [done|]. exists p.
    split; [by apply Hsub|done].
  - destruct (recognize_deriva g arrel frase Hfrase) as (b & Hb & Hiff).
    destruct (recognize_deriva g' arrel frase Hfrase) as (b' & -> & Hiff').
    rewrite Hb in Hrec. injection Hrec as ->. f_equal. apply Hiff'.
    eapply deriva_mes_regles; [done|]. by apply Hiff.
Qed.

Lemma X5_mes_regles_witness :
  dict_wf [(lit "S", [PStr (lit "AB")]); (lit "A", [PStr (lit "a")]);
           (lit "B", [PStr (lit "b")])] ∧
  dict_wf Main.create_grammar_g2 ∧
  regles [(lit "S", [PStr (lit "AB")]); (lit "A", [PStr (lit "a")]);
          (lit "B", [PStr (lit "b")])] ⊆ regles Main.create_grammar_g2 ∧
  Cky.recognize [(lit "S", [PStr (lit "AB")]); (lit "A", [PStr (lit "a")]);
                 (lit "B", [PStr (lit "b")])] (lit "S") (PStr (lit "ab")) =
    Ok true ∧
  Cky.recognize Main.create_grammar_g2 (lit "S") (PStr (lit "ab")) = Ok true.
Proof.
  split; [decideix|]. split; [decideix|]. split; [decideix|].
  split; [reflexivity|].
  apply (X5_mes_regles
           [(lit "S", [PStr (lit "AB")]); (lit "A", [PStr (lit "a")]);
            (lit "B", [PStr (lit "b")])]
           Main.create_grammar_g2 (lit "S") (PStr (lit "ab")));
    [decideix|decideix|decideix|reflexivity].
Defined.

(** X6: a sentence with a word that is the body of no rule is not
    recognised, whatever the start symbol. *)
Theorem X6_mot_desconegut (g : normes) (arrel : str) (frase : pyseq)
    (w : str) :
  w ∈ items frase → (∀ a, ¬ regla_terminal g a w) →
  Cky.recognize g arrel frase = Ok false.
Proof.
  intros Hw Hcap.
  assert (is_falsy frase = false) as Hfrase.
  { unfold is_falsy. destruct (items frase); [|done]. by apply elem_of_nil in Hw. }
  destruct (recognize_deriva g arrel frase Hfrase) as ([] & -> & Hiff); [|done].
  destruct Hiff as [Hd _]. destruct (deriva_mots g arrel (items frase) w) as [a Ha];
    [by apply Hd|done|]. by destruct (Hcap a).
Qed.

Lemma sense_regla_terminal (g : normes) (w : str) :
  Forall (λ r, items r.2 ≠ [w]) (regles g) → ∀ a, ¬ regla_terminal g a w.
Proof.
  intros Hall a (p & Hp & Hitems).
  rewrite Forall_forall in Hall. by apply (Hall (a, p)).
Qed.

Lemma X6_mot_desconegut_witness :
  lit "c" ∈ items (PStr (lit "acb")) ∧
  (∀ a, ¬ regla_terminal Main.create_grammar_g2 a (lit "c")) ∧
  Cky.recognize Main.create_grammar_g2 (lit "S") (PStr (lit "acb")) = Ok false.
Proof.
  split; [decideix|]. split; [apply sense_regla_terminal; decideix|].
  apply (X6_mot_desconegut Main.create_grammar_g2 (lit "S") (PStr (lit "acb"))
           (lit "c")); [decideix|apply sense_regla_terminal; decideix].
Defined.

(** X7: a grammar without bodies of two symbols recognises no sentence
    of two words or more. *)
Theorem X7_sense_binaries (g : normes) (arrel : str) (frase : pyseq) :
  (∀ a p, (a, p) ∈ regles g → len p ≠ 2) → 2 ≤ len frase →
  Cky.recognize g arrel frase = Ok false.
Proof.
  intros Hg Hlen.
  assert (is_falsy frase = false) as Hfrase.
  { unfold is_falsy, len in *. destruct (items frase); [simpl in Hlen; lia|done]. }
  destruct (recognize_deriva g arrel frase Hfrase) as ([] & -> & Hiff); [|done].
  destruct Hiff as [Hd _].
  apply (deriva_sense_binaries g arrel (items frase) Hg) in Hd; [|done].
  unfold len in Hlen. lia.
Qed.

Lemma sense_cossos_binaris (g : normes) :
  Forall (λ r, len r.2 ≠ 2) (regles g) → ∀ a p, (a, p) ∈ regles g → len p ≠ 2.
Proof.
  intros Hall a p Hp. rewrite Forall_forall in Hall. by apply (Hall (a, p)).
Qed.

Lemma X7_sense_binaries_witness :
  (∀ a p, (a, p) ∈ regles [(lit "S", [PStr (lit "a"); PStr (lit "b")])] →
          len p ≠ 2) ∧
  2 ≤ len (PStr (lit "ab")) ∧
  Cky.recognize [(lit "S", [PStr (lit "a"); PStr (lit "b")])] (lit "S")
    (PStr (lit "ab")) = Ok false.
Proof.
  split; [apply sense_cossos_binaris; decideix|]. split; [vm_compute; lia|].
  apply (X7_sense_binaries [(lit "S", [PStr (lit "a"); PStr (lit "b")])]
           (lit "S") (PStr (lit "ab")));
    [apply sense_cossos_binaris; decideix|vm_compute; lia].
Defined.

(** X8: when [a] has the body [b c], a sentence recognised from [b]
    followed by a sentence recognised from [c] is recognised from [a]. *)
Theorem X8_concatenacio (g : normes) (a b c : str) (u v : pyseq) :
  regla_binaria g a b c →
  is_falsy u = false → is_falsy v = false →
  Cky.recognize g b u = Ok true → Cky.recognize g c v = Ok true →
  Cky.recognize g a (PList (items u ++ items v)) = Ok true.
Proof.
  intros Hr Hu Hv Hbu Hcv.
  destruct (recognize_deriva g b u Hu) as (b1 & Hb1 & Hd1).
  destruct (recognize_deriva g c v Hv) as (b2 & Hb2 & Hd2).
  rewrite Hb1 in Hbu. injection Hbu as ->.
  rewrite Hb2 in Hcv. injection Hcv as ->.
  destruct (recognize_deriva g a (PList (items u ++ items v)))
    as (b3 & -> & Hd3).
  { unfold is_falsy in *. simpl. by destruct (items u). }
  f_equal. apply Hd3. simpl. eapply deriva_binaria; [done| |].
  - by apply Hd1.
  - by apply Hd2.
Qed.

Lemma X8_concatenacio_witness :
  regla_binaria Main.create_grammar_g2 (lit "S") (lit "S") (lit "S") ∧
  is_falsy (PStr (lit "ab")) = false ∧ is_falsy (PStr (lit "bb")) = false ∧
  Cky.recognize Main.create_grammar_g2 (lit "S") (PStr (lit "ab")) = Ok true ∧
  Cky.recognize Main.create_grammar_g2 (lit "S") (PStr (lit "bb")) = Ok true ∧
  Cky.recognize Main.create_grammar_g2 (lit "S")
    (PList (items (PStr (lit "ab")) ++ items (PStr (lit "bb")))) = Ok true.
Proof.
  assert (regla_binaria Main.create_grammar_g2 (lit "S") (lit "S") (lit "S"))
    as Hr.
  { exists (PStr (lit "SS")). split; [decideix|reflexivity]. }
  split; [exact Hr|]. do 4 (split; [reflexivity|]).
  apply (X8_concatenacio Main.create_grammar_g2 (lit "S") (lit "S") (lit "S")
           (PStr (lit "ab")) (PStr (lit "bb")));
    [exact Hr|reflexivity..].
Defined.

(** X9: a sentence given as a string and the same sentence given as the
    list of its characters get the same result, in both files. *)
Theorem X9_frase_com_a_llista (g : normes) (arrel : str)
    (frase frase' : pyseq) :
  items frase = items frase' →
  Cky.recognize g arrel frase = Cky.recognize g arrel frase' ∧
  Main.recognize g arrel frase = Main.recognize g arrel frase'.
Proof.
  intros Hitems.
  assert (is_falsy frase' = is_falsy frase) as Hfalsy
    by (unfold is_falsy; by rewrite Hitems).
  destruct (is_falsy frase) eqn:Hfrase.
  - split.
    + by rewrite !recognize_buida.
    + by rewrite !main_recognize_buida.
  - assert (Cky.recognize g arrel frase = Cky.recognize g arrel frase') as Heq.
    { destruct (recognize_deriva g arrel frase Hfrase) as (b & -> & Hb).
      destruct (recognize_deriva g arrel frase' Hfalsy) as (b' & -> & Hb').
      f_equal. apply eq_true_iff_eq. by rewrite Hb, Hb', Hitems. }
    split; [done|]. by rewrite !main_igual_cky.
Qed.

Lemma X9_frase_com_a_llista_witness :
  items (PStr (lit "ab")) = items (PList [lit "a"; lit "b"]) ∧
  Cky.recognize Main.create_grammar_g2 (lit "S") (PStr (lit "ab")) =
    Cky.recognize Main.create_grammar_g2 (lit "S") (PList [lit "a"; lit "b"]) ∧
  Main.recognize Main.create_grammar_g2 (lit "S") (PStr (lit "ab")) =
    Main.recognize Main.create_grammar_g2 (lit "S") (PList [lit "a"; lit "b"]).
Proof.
  split; [reflexivity|].
  apply (X9_frase_com_a_llista Main.create_grammar_g2 (lit "S")
           (PStr (lit "ab")) (PList [lit "a"; lit "b"])).
  reflexivity.
Defined.

(** *** Bodies as strings and as lists *)

Lemma es_buida_items (p p' : pyseq) :
  items p = items p' → Cky.es_buida p = Cky.es_buida p'.
Proof.
  intros Hitems. unfold Cky.es_buida, len, getitem. by rewrite Hitems.
Qed.

Lemma alguna_buida_items (ps ps' : list pyseq) :
  Forall2 (λ p p', items p = items p') ps ps' →
  Cky.alguna_buida ps = Cky.alguna_buida ps'.
Proof.
  induction 1 as [|p p' ps ps' Hp _ IH]; simpl; [done|].
  rewrite (es_buida_items p p' Hp).
  destruct (Cky.es_buida p') as [[]|]; simpl; done.
Qed.

Lemma dict_get_mateixos_simbols (g g' : normes) (k : str) :
  mateixos_simbols g g' →
  match dict_get g k, dict_get g' k with
  | Some ps, Some ps' => Forall2 (λ p p', items p = items p') ps ps'
  | None, None => True
  | _, _ => False
  end.
Proof.
  induction 1 as [|[a ps] [a' ps'] g g' [Ha Hps] _ IH]; simpl; [done|].
  simpl in Ha, Hps. subst a'. by destruct (decide (a = k)).
Qed.

Lemma mateixos_simbols_regles (g g' : normes) (a : str) (p : pyseq) :
  mateixos_simbols g g' → (a, p) ∈ regles g →
  ∃ p', (a, p') ∈ regles g' ∧ items p' = items p.
Proof.
  induction 1 as [|[k ps] [k' ps'] g g' [Hk Hps] _ IH].
  { intros Hp. by apply elem_of_nil in Hp. }
  simpl in Hk, Hps. subst k'. unfold regles. rewrite !bind_cons.
  fold (regles g) (regles g'). intros [Hp|Hp]%elem_of_app.
  - apply list_elem_of_fmap in Hp as (q & [= -> ->] & Hq).
    apply list_elem_of_lookup in Hq as [i Hi].
    destruct (Forall2_lookup_l _ _ _ _ _ Hps Hi) as (p' & Hi' & Hitems).
    exists p'. split; [|done]. apply elem_of_app. left.
    apply list_elem_of_fmap. exists p'. split; [done|].
    apply list_elem_of_lookup. eauto.
  - destruct (IH Hp) as (p' & Hp' & Hitems). exists p'.
    split; [|done]. apply elem_of_app. by right.
Qed.

Lemma mateixos_simbols_sim (g g' : normes) :
  mateixos_simbols g g' → mateixos_simbols g' g.
Proof.
  induction 1 as [|[k ps] [k' ps'] g g' [Hk Hps] _ IH]; constructor; [|done].
  simpl in *. split; [done|].
  clear -Hps. induction Hps; constructor; done.
Qed.

Lemma deriva_mateixos_simbols (g g' : normes) (a : str) (l : list str) :
  mateixos_simbols g g' → deriva g a l → deriva g' a l.
Proof.
  intros Hgg.
  induction 1 as [a w (p & Hp & Hitems)|a b c u v (p & Hp & Hitems)].
  - destruct (mateixos_simbols_regles g g' a p Hgg Hp) as (p' & Hp' & Heq).
    apply deriva_terminal. exists p'. split; [done|congruence].
  - destruct (mateixos_simbols_regles g g' a p Hgg Hp) as (p' & Hp' & Heq).
    eapply deriva_binaria; [|done..]. exists p'. split; [done|congruence].
Qed.

(** X10: in cky.py a body given as a string and the same body given as
    the list of its characters are interchangeable: the result does not
    change, on any sentence. *)
Theorem X10_cos_com_a_llista (g g' : normes) (arrel : str) (frase : pyseq) :
  mateixos_simbols g g' →
  Cky.recognize g arrel frase = Cky.recognize g' arrel frase.
Proof.
  intros Hgg. destruct (is_falsy frase) eqn:Hfrase.
  - rewrite !recognize_buida by done.
    unfold Cky._comprovar_derivacio_buida, dict_in, dict_index. simpl.
    pose proof (dict_get_mateixos_simbols g g' arrel Hgg) as Hget.
    destruct (dict_get g arrel) as [ps|], (dict_get g' arrel) as [ps'|];
      simpl; try done.
    by apply alguna_buida_items.
  - destruct (recognize_deriva g arrel frase Hfrase) as (b & -> & Hb).
    destruct (recognize_deriva g' arrel frase Hfrase) as (b' & -> & Hb').
    f_equal. apply eq_true_iff_eq. rewrite Hb, Hb'. split.
    + by apply deriva_mateixos_simbols.
    + by apply deriva_mateixos_simbols, mateixos_simbols_sim.
Qed.

Lemma g2_llistes_simbols : mateixos_simbols Main.create_grammar_g2 g2_llistes.
Proof. repeat (constructor; simpl; try done). Qed.

Lemma X10_cos_com_a_llista_witness :
  mateixos_simbols Main.create_grammar_g2 g2_llistes ∧
  Cky.recognize Main.create_grammar_g2 (lit "S") (PStr (lit "abab")) =
  Cky.recognize g2_llistes (lit "S") (PStr (lit "abab")).
Proof.
  split; [apply g2_llistes_simbols|].
  apply (X10_cos_com_a_llista Main.create_grammar_g2 g2_llistes (lit "S")
           (PStr (lit "abab"))).
  apply g2_llistes_simbols.
Defined.

(** X16: the rendering of cky.py does not tell a body given as a string
    from the same body given as the list of its characters. *)
Theorem X16_str_cos_com_a_llista (g g' : normes) (rb rb' : index_binari)
    (arrel arrel' : str) :
  mateixos_simbols g g' →
  Cky.__str__ {| Cky.gramatica := g; Cky.regles_binaries := rb;
                 Cky.simbol_arrel := arrel |} =
  Cky.__str__ {| Cky.gramatica := g'; Cky.regles_binaries := rb';
                 Cky.simbol_arrel := arrel' |}.
Proof.
  intros Hgg. unfold Cky.__str__. cbn [Cky.gramatica]. f_equal.
  induction Hgg as [|[k ps] [k' ps'] g g' [Hk Hps] _ IH]; [done|].
  simpl in Hk, Hps. subst k'. rewrite !fmap_cons. f_equal; [|done].
  unfold Cky.linia. do 3 f_equal. clear -Hps.
  induction Hps as [|p p' ps ps' Hp _ IH]; [done|].
  rewrite !fmap_cons. f_equal; [|done]. unfold Cky.cos_str. by rewrite Hp.
Qed.

Lemma X16_str_cos_com_a_llista_witness :
  mateixos_simbols Main.create_grammar_g2 g2_llistes ∧
  Cky.__str__ {| Cky.gramatica := Main.create_grammar_g2;
                 Cky.regles_binaries := ∅; Cky.simbol_arrel := lit "S" |} =
  Cky.__str__ {| Cky.gramatica := g2_llistes;
                 Cky.regles_binaries := ∅; Cky.simbol_arrel := lit "S" |}.
Proof.
  split; [apply g2_llistes_simbols|].
  apply (X16_str_cos_com_a_llista Main.create_grammar_g2 g2_llistes ∅ ∅
           (lit "S") (lit "S")).
  apply g2_llistes_simbols.
Defined.

(** *** A body that is already there *)

Lemma alguna_buida_mateixos (ps ps' : list pyseq) :
  (∀ p, p ∈ ps ↔ p ∈ ps') → Cky.alguna_buida ps = Cky.alguna_buida ps'.
Proof.
  intros Heq.
  destruct (alguna_buida_ok ps) as (b & -> & Hb).
  destruct (alguna_buida_ok ps') as (b' & -> & Hb').
  f_equal. apply eq_true_iff_eq. rewrite Hb, Hb'.
  split; intros (p & Hp & Hs); exists p; (split; [by apply Heq|done]).
Qed.

(** X11: a body that a non-terminal already has, added once more
    anywhere among its bodies, changes neither the index of binary rules
    nor the result of the recogniser. *)
Theorem X11_cos_repetit (g1 g2 : normes) (a : str) (ps1 ps2 : list pyseq)
    (p : pyseq) (arrel : str) (frase : pyseq) :
  p ∈ ps1 ++ ps2 →
  Cky._preprocessar_regles_binaries (g1 ++ (a, ps1 ++ p :: ps2) :: g2) =
    Cky._preprocessar_regles_binaries (g1 ++ (a, ps1 ++ ps2) :: g2) ∧
  Cky.recognize (g1 ++ (a, ps1 ++ p :: ps2) :: g2) arrel frase =
    Cky.recognize (g1 ++ (a, ps1 ++ ps2) :: g2) arrel frase.
Proof.
  intros Hp.
  assert (mateixes_regles (g1 ++ (a, ps1 ++ p :: ps2) :: g2)
            (g1 ++ (a, ps1 ++ ps2) :: g2)) as Hgg.
  { intros x q _. rewrite regles_afegir. split; [|by left].
    intros [?|[= -> ->]]; [done|]. apply elem_of_regles.
    exists (ps1 ++ ps2). split; [|done]. apply elem_of_app. right. left. }
  split.
  - rewrite !preprocessar_ok. f_equal. by apply mateix_index.
  - destruct (is_falsy frase) eqn:Hfrase; [|by apply recognize_no_buida_mateixes].
    rewrite !recognize_buida by done.
    unfold Cky._comprovar_derivacio_buida, dict_in, dict_index. simpl.
    rewrite !dict_get_app. destruct (dict_get g1 arrel); [done|].
    case_decide; [|done]. simpl. apply alguna_buida_mateixos.
    intros q. rewrite !elem_of_app, elem_of_cons.
    apply elem_of_app in Hp. naive_solver.
Qed.

Lemma X11_cos_repetit_witness :
  PStr (lit "BA") ∈ [PStr (lit "a")] ++ [PStr (lit "BA")] ∧
  Cky._preprocessar_regles_binaries
    ([(lit "S", [PStr (lit "AB")])] ++
     (lit "A", [PStr (lit "a")] ++ PStr (lit "BA") :: [PStr (lit "BA")]) ::
     [(lit "B", [PStr (lit "b")])]) =
  Cky._preprocessar_regles_binaries
    ([(lit "S", [PStr (lit "AB")])] ++
     (lit "A", [PStr (lit "a")] ++ [PStr (lit "BA")]) ::
     [(lit "B", [PStr (lit "b")])]) ∧
  Cky.recognize
    ([(lit "S", [PStr (lit "AB")])] ++
     (lit "A", [PStr (lit "a")] ++ PStr (lit "BA") :: [PStr (lit "BA")]) ::
     [(lit "B", [PStr (lit "b")])]) (lit "S") (PStr (lit "bab")) =
  Cky.recognize
    ([(lit "S", [PStr (lit "AB")])] ++
     (lit "A", [PStr (lit "a")] ++ [PStr (lit "BA")]) ::
     [(lit "B", [PStr (lit "b")])]) (lit "S") (PStr (lit "bab")).
Proof.
  split; [decideix|].
  apply (X11_cos_repetit [(lit "S", [PStr (lit "AB")])]
           [(lit "B", [PStr (lit "b")])] (lit "A")
           [PStr (lit "a")] [PStr (lit "BA")] (PStr (lit "BA"))
           (lit "S") (PStr (lit "bab"))).
  decideix.
Defined.

(** *** The object of main.py *)

(** X12: before [carregar_gramatica] the recogniser of main.py raises:
    [TypeError] on the empty sentence, [AttributeError] on any other. *)
Theorem X12_sense_carregar (frase : pyseq) :
  Main.algoritme_cky Main.__init__ frase =
  Raise (if is_falsy frase then TypeError else AttributeError).
Proof.
  unfold Main.algoritme_cky, is_falsy, len, range, range2.
  destruct (items frase) as [|w ws] eqn:Hitems; [done|].
  simpl. unfold Main.omplir_base, getitem. rewrite Hitems. done.
Qed.

Lemma main_recognize_total (g : normes) (arrel : str) (frase : pyseq) :
  ∃ b, Main.recognize g arrel frase = Ok b.
Proof.
  destruct (is_falsy frase) eqn:Hfrase.
  - rewrite main_recognize_buida by done.
    unfold Main._comprovar_derivacio_buida, dict_in, dict_index. simpl.
    destruct (dict_get g arrel); simpl; eauto.
  - rewrite main_igual_cky by done. apply recognize_total.
Qed.

(** X13: [carregar_gramatica] replaces whatever the object held: on an
    object in any state it never raises, and the recogniser then behaves
    as on a fresh object loaded with the same grammar, and never raises. *)
Theorem X13_tornar_a_carregar (self : Main.Gramatica) (g : normes)
    (arrel : str) (frase : pyseq) :
  ∃ self', Main.carregar_gramatica self g arrel = Ok self' ∧
    Main.algoritme_cky self' frase = Main.recognize g arrel frase ∧
    ∃ b, Main.recognize g arrel frase = Ok b.
Proof.
  exists {| Main.gramatica := Some g;
            Main.regles_binaries := Some (index_de (regles g) ∅);
            Main.simbol_arrel := Some arrel |}.
  split; [|split].
  - unfold Main.carregar_gramatica, Main._preprocessar_gramatica.
    cbn [Main.gramatica].
    change (for_each g _ ∅) with (Cky._preprocessar_regles_binaries g).
    by rewrite preprocessar_ok.
  - unfold Main.recognize. by rewrite main_carregar_ok.
  - apply main_recognize_total.
Qed.

(** X14: when the start symbol is no key of the grammar, main.py too
    answers false on every sentence. *)
Theorem X14_main_arrel_desconegut (g : normes) (arrel : str)
    (frase : pyseq) :
  arrel ∉ g.*1 → Main.recognize g arrel frase = Ok false.
Proof.
  intros Harrel. destruct (is_falsy frase) eqn:Hfrase.
  - rewrite main_recognize_buida by done.
    unfold Main._comprovar_derivacio_buida, dict_in. simpl.
    apply dict_get_None in Harrel. by rewrite Harrel.
  - rewrite main_igual_cky by done.
    destruct (recognize_no_buida g arrel frase Hfrase)
      as (t0 & t & _ & _ & _ & Hclaus & ->).
    f_equal. apply bool_decide_eq_false. intros Hin. by apply Hclaus in Hin.
Qed.

Lemma X14_main_arrel_desconegut_witness :
  (lit "Z" ∉ Main.create_grammar_g2.*1) ∧
  Main.recognize Main.create_grammar_g2 (lit "Z") (PStr (lit "ab")) = Ok false.
Proof.
  split; [decideix|].
  apply (X14_main_arrel_desconegut Main.create_grammar_g2 (lit "Z")
           (PStr (lit "ab"))).
  decideix.
Defined.

(** *** The renderings *)

Lemma unir_cossos_str (ps : list pyseq) :
  (∀ p, p ∈ ps → ∃ s, p = PStr s) → ∃ l, Main.unir_cossos ps = Ok l.
Proof.
  induction ps as [|p ps IH]; intros Hps; simpl; [eauto|].
  destruct (Hps p) as [s ->]; [left|].
  destruct IH as [l ->]; [|simpl; eauto].
  intros q Hq. apply Hps. by right.
Qed.

Lemma unir_cossos_llista (ps : list pyseq) (l : list str) :
  PList l ∈ ps → Main.unir_cossos ps = Raise TypeError.
Proof.
  induction ps as [|p ps IH]; intros Hl; [by apply elem_of_nil in Hl|].
  simpl. destruct p as [s|l']; [|done].
  apply elem_of_cons in Hl as [?|Hl]; [done|]. by rewrite IH.
Qed.

Lemma linies_str (g : normes) :
  (∀ a p, (a, p) ∈ regles g → ∃ s, p = PStr s) → ∃ ls, Main.linies g = Ok ls.
Proof.
  induction g as [|[a ps] g IH]; intros Hg; simpl; [eauto|].
  destruct (unir_cossos_str ps) as [l ->].
  { intros p Hp. apply (Hg a). apply elem_of_regles. exists ps.
    split; [left|done]. }
  destruct IH as [ls ->]; [|simpl; eauto].
  intros x p (ps' & Hps' & Hp)%elem_of_regles. apply (Hg x).
  apply elem_of_regles. exists ps'. split; [by right|done].
Qed.

Lemma unir_cossos_error (ps : list pyseq) (e : excepcio) :
  Main.unir_cossos ps = Raise e → e = TypeError.
Proof.
  induction ps as [|[s|l] ps IH]; simpl; [done| |congruence].
  destruct (Main.unir_cossos ps); simpl; [done|]. intros [= <-]. by apply IH.
Qed.

Lemma linies_llista (g : normes) (a : str) (l : list str) :
  (a, PList l) ∈ regles g → Main.linies g = Raise TypeError.
Proof.
  induction g as [|[k ps] g IH]; intros (ps' & Hps' & Hl)%elem_of_regles.
  { by apply elem_of_nil in Hps'. }
  simpl. apply elem_of_cons in Hps' as [[= -> ->]|Hps'].
  - by rewrite (unir_cossos_llista ps l).
  - destruct (Main.unir_cossos ps) eqn:Hps; simpl.
    + rewrite IH; [done|]. apply elem_of_regles. eauto.
    + by rewrite (unir_cossos_error ps e Hps).
Qed.

Lemma tots_str_o_llista (g : normes) :
  (∀ a p, (a, p) ∈ regles g → ∃ s, p = PStr s) ∨
  (∃ a l, (a, PList l) ∈ regles g).
Proof.
  induction (regles g) as [|[a p] rs IH].
  - left. intros a p Hp. by apply elem_of_nil in Hp.
  - destruct p as [s|l]; [|right; exists a, l; left].
    destruct IH as [IH|(a' & l & Hl)]; [left|right; exists a', l; by right].
    intros x q [[= -> ->]|Hq]%elem_of_cons; eauto.
Qed.

(** X15: the rendering of main.py is the fixed message on an object that
    has not been loaded; on a loaded one it raises [TypeError] when some
    body is a list, and returns a text when every body is a string. *)
Theorem X15_main_str (g : normes) (rb : option index_binari)
    (arrel : option str) :
  Main.__str__ Main.__init__ = Ok Main.cap_gramatica ∧
  (((∃ a l, (a, PList l) ∈ regles g) ∧
    Main.__str__ {| Main.gramatica := Some g; Main.regles_binaries := rb;
                    Main.simbol_arrel := arrel |} = Raise TypeError) ∨
   ((∀ a p, (a, p) ∈ regles g → ∃ s, p = PStr s) ∧
    ∃ r, Main.__str__ {| Main.gramatica := Some g; Main.regles_binaries := rb;
                         Main.simbol_arrel := arrel |} = Ok r)).
Proof.
  split; [done|]. unfold Main.__str__. cbn [Main.gramatica].
  destruct (tots_str_o_llista g) as [Hstr|(a & l & Hl)].
  - right. split; [done|]. destruct (linies_str g Hstr) as [ls ->].
    cbn [bind]. eauto.
  - left. split; [eauto|]. by rewrite (linies_llista g a l).
Qed.

Lemma cos_str_curt (s : str) :
  length s ≤ 1 → Cky.cos_str (PStr s) = s.
Proof.
  unfold Cky.cos_str. destruct s as [|c [|c' s]]; simpl; [done|done|lia].
Qed.

(** X17: when every body is a string of at most one character, the
    renderings of the two files are the same text. *)
Theorem X17_mateix_str (g : normes) (rb : index_binari) (arrel : str) :
  (∀ a p, (a, p) ∈ regles g → ∃ s, p = PStr s ∧ length s ≤ 1) →
  Main.__str__ {| Main.gramatica := Some g;
                  Main.regles_binaries := Some rb;
                  Main.simbol_arrel := Some arrel |} =
  Ok (Cky.__str__ {| Cky.gramatica := g; Cky.regles_binaries := rb;
                     Cky.simbol_arrel := arrel |}).
Proof.
  intros Hg. unfold Main.__str__, Cky.__str__.
  cbn [Main.gramatica Cky.gramatica].
  assert (Main.linies g =
          Ok ((λ '(a, ps), Cky.linia a ps) <$> g)) as ->; [|done].
  induction g as [|[a ps] g IH]; [done|].
  cbn [Main.linies]. rewrite fmap_cons.
  assert (Main.unir_cossos ps = Ok (Cky.cos_str <$> ps)) as ->.
  { assert (∀ p, p ∈ ps → ∃ s, p = PStr s ∧ length s ≤ 1) as Hps.
    { intros p Hp. apply (Hg a). apply elem_of_regles. exists ps.
      split; [left|done]. }
    clear -Hps. induction ps as [|p ps IH]; [done|].
    destruct (Hps p) as (s & -> & Hs); [left|].
    cbn [Main.unir_cossos]. rewrite IH, fmap_cons, cos_str_curt by
      (done || (intros q Hq; apply Hps; by right)). done. }
  cbn [bind]. rewrite IH; [done|].
  intros x p (ps' & Hps' & Hp)%elem_of_regles. apply (Hg x).
  apply elem_of_regles. exists ps'. split; [by right|done].
Qed.

Lemma X17_mateix_str_witness :
  (∀ a p, (a, p) ∈ regles [(lit "S", [PStr (lit "a"); PStr (lit "b")]);
                           (lit "X", [PStr buit])] →
          ∃ s, p = PStr s ∧ length s ≤ 1) ∧
  Main.__str__ {| Main.gramatica :=
                    Some [(lit "S", [PStr (lit "a"); PStr (lit "b")]);
                          (lit "X", [PStr buit])];
                  Main.regles_binaries := Some ∅;
                  Main.simbol_arrel := Some (lit "S") |} =
  Ok (Cky.__str__ {| Cky.gramatica :=
                       [(lit "S", [PStr (lit "a"); PStr (lit "b")]);
                        (lit "X", [PStr buit])];
                     Cky.regles_binaries := ∅;
                     Cky.simbol_arrel := lit "S" |}).
Proof.
  assert (∀ a p, (a, p) ∈ regles [(lit "S", [PStr (lit "a"); PStr (lit "b")]);
                                  (lit "X", [PStr buit])] →
                 ∃ s, p = PStr s ∧ length s ≤ 1) as Hg.
  { intros a p Hp. vm_compute in Hp.
    repeat (apply elem_of_cons in Hp as [[= -> ->]|Hp]);
      [eexists; split; [reflexivity|simpl; lia]..|].
    by apply elem_of_nil in Hp. }
  split; [exact Hg|].
  apply (X17_mateix_str [(lit "S", [PStr (lit "a"); PStr (lit "b")]);
                         (lit "X", [PStr buit])] ∅ (lit "S")).
  exact Hg.
Defined.

(** X18: when every body is a string, as in the grammars of main.py, a
    sentence given as a list with a word that is not one character long
    is not recognised. *)
Theorem X18_mots_d_un_caracter (g : normes) (arrel : str) (frase : pyseq)
    (w : str) :
  (∀ a p, (a, p) ∈ regles g → ∃ s, p = PStr s) →
  w ∈ items frase → length w ≠ 1 →
  Cky.recognize g arrel frase = Ok false.
Proof.
  intros Hg Hw Hlen.
  assert (is_falsy frase = false) as Hfrase.
  { unfold is_falsy. destruct (items frase); [|done]. by apply elem_of_nil in Hw. }
  destruct (recognize_deriva g arrel frase Hfrase) as ([] & -> & Hiff); [|done].
  destruct Hiff as [Hd _].
  destruct (deriva_mots g arrel (items frase) w) as (a & p & Hp & Hitems);
    [by apply Hd|done|].
  destruct (Hg a p Hp) as [s ->]. simpl in Hitems.
  destruct s as [|c [|c' s]]; simpl in Hitems; try done.
  injection Hitems as <-. done.
Qed.

Lemma tots_str_dec (g : normes) :
  Forall (λ r, match r.2 with PStr _ => True | PList _ => False end)
    (regles g) →
  ∀ a p, (a, p) ∈ regles g → ∃ s, p = PStr s.
Proof.
  intros Hall a p Hp. rewrite Forall_forall in Hall.
  specialize (Hall (a, p) Hp). simpl in Hall. destruct p; [eauto|done].
Qed.

Lemma X18_mots_d_un_caracter_witness :
  (∀ a p, (a, p) ∈ regles Main.create_grammar_g2 → ∃ s, p = PStr s) ∧
  lit "ab" ∈ items (PList [lit "ab"]) ∧
  length (lit "ab") ≠ 1 ∧
  Cky.recognize Main.create_grammar_g2 (lit "S") (PList [lit "ab"]) = Ok false.
Proof.
  assert (∀ a p, (a, p) ∈ regles Main.create_grammar_g2 → ∃ s, p = PStr s)
    as Hg.
  { apply tots_str_dec. repeat constructor. }
  split; [exact Hg|]. split; [decideix|]. split; [simpl; lia|].
  apply (X18_mots_d_un_caracter Main.create_grammar_g2 (lit "S")
           (PList [lit "ab"]) (lit "ab")); [exact Hg|decideix|simpl; lia].
Defined.

(** X19: in cky.py a body of no symbols, the empty string or the empty
    list, added anywhere among the bodies of a non-terminal changes
    neither the index of binary rules nor the result, on the empty
    sentence as on any other. *)
Theorem X19_cos_sense_simbols (g1 g2 : normes) (a : str)
    (ps1 ps2 : list pyseq) (p : pyseq) (arrel : str) (frase : pyseq) :
  len p = 0 →
  Cky._preprocessar_regles_binaries (g1 ++ (a, ps1 ++ p :: ps2) :: g2) =
    Cky._preprocessar_regles_binaries (g1 ++ (a, ps1 ++ ps2) :: g2) ∧
  Cky.recognize (g1 ++ (a, ps1 ++ p :: ps2) :: g2) arrel frase =
    Cky.recognize (g1 ++ (a, ps1 ++ ps2) :: g2) arrel frase.
Proof.
  intros Hp.
  assert (mateixes_regles (g1 ++ (a, ps1 ++ p :: ps2) :: g2)
            (g1 ++ (a, ps1 ++ ps2) :: g2)) as Hgg.
  { intros x q Hq. rewrite regles_afegir. split; [|by left].
    intros [?|[= -> ->]]; [done|lia]. }
  split.
  - rewrite !preprocessar_ok. f_equal. by apply mateix_index.
  - destruct (is_falsy frase) eqn:Hfrase.
    + apply recognize_buida_afegir; [lia|done].
    + by apply recognize_no_buida_mateixes.
Qed.

Lemma X19_cos_sense_simbols_witness :
  len (PStr buit) = 0 ∧
  Cky._preprocessar_regles_binaries
    ([] ++ (lit "S", [PStr (lit "a")] ++ PStr buit :: []) :: []) =
  Cky._preprocessar_regles_binaries
    ([] ++ (lit "S", [PStr (lit "a")] ++ []) :: []) ∧
  Cky.recognize ([] ++ (lit "S", [PStr (lit "a")] ++ PStr buit :: []) :: [])
    (lit "S") (PStr buit) =
  Cky.recognize ([] ++ (lit "S", [PStr (lit "a")] ++ []) :: [])
    (lit "S") (PStr buit).
Proof.
  split; [reflexivity|].
  apply (X19_cos_sense_simbols [] [] (lit "S") [PStr (lit "a")] []
           (PStr buit) (lit "S") (PStr buit)).
  reflexivity.
Defined.
